(** * schedlib: the round-robin resolver, the SAT operation sequencer and
      the instrument spec query, embedded from
      [schedlib/policies/sat.py] and [schedlib/instrument.py]. *)

From Stdlib Require Import QArith Qcanon Ascii String.
From stdpp Require Import base option list numbers strings gmap sorting.

Local Open Scope string_scope.
Local Open Scope list_scope.
Local Open Scope Z_scope.

(** ** Time and numbers

    A [datetime] is the integer count of microseconds since the epoch and a
    [timedelta] an integer count of microseconds, which is the resolution Python
    stores. *)

Definition datetime := Z.
Definition timedelta := Z.

(** A Python number as the operations and the spec query meet it.  They only
    compare, select and print numbers, never add them, so an [int] or a
    finite [float] is the rational it denotes (a canonical [Qc]: [1] and
    [1.0], and [0.0] and [-0.0], are one number, as they are for [==]); a
    [float] may also be one of the two infinities or NaN. *)
Inductive number :=
  | Finite (q : Qc)
  | PosInf
  | NegInf
  | NaN.

Global Instance number_eq_dec : EqDecision number.
Proof. solve_decision. Defined.

(** The integer [n] as a number. *)
Definition num (n : Z) : number := Finite (Qc_of_Z n).

Definition is_nan (a : number) : bool :=
  match a with NaN => true | _ => false end.

(** Python's [a == b], [a < b] and [a <= b] on numbers.  Every comparison
    with NaN is false, also that of NaN with itself. *)
Definition num_eq (a b : number) : bool :=
  match a, b with
  | Finite x, Finite y => bool_decide (x = y)
  | PosInf, PosInf | NegInf, NegInf => true
  | _, _ => false
  end.

Definition num_lt (a b : number) : bool :=
  match a, b with
  | NaN, _ | _, NaN => false
  | Finite x, Finite y => bool_decide (x < y)%Qc
  | NegInf, (Finite _ | PosInf) => true
  | Finite _, PosInf => true
  | _, _ => false
  end.

Definition num_le (a b : number) : bool :=
  match a, b with
  | NaN, _ | _, NaN => false
  | Finite x, Finite y => bool_decide (x ≤ y)%Qc
  | NegInf, _ | _, PosInf => true
  | _, _ => false
  end.

(** [dt.timedelta(seconds=s)] for an integral number of seconds. *)
Definition timedelta_of_seconds (s : Z) : timedelta := s * 1000000.

(** [timedelta.total_seconds()], as an exact rational. *)
Definition total_seconds (d : timedelta) : Qc := (Qc_of_Z d / Qc_of_Z 1000000)%Qc.

(** Modelled from the spec: the unit constants [utils.minute] and [utils.hour]
    (module [schedlib/utils.py] is not part of the sources); durations are
    counted in seconds. *)
Definition minute : Z := 60.
Definition hour : Z := 60 * minute.

(** ** Blocks *)

(** Modelled from the spec: [core.Block], the base time interval [t0, t1] that
    every block variant shares (module [schedlib/core.py] is not part of the
    sources).  The docstring of [round_robin] writes such a block [[t0, t1]]. *)
Record Block := mkBlock { t0 : datetime; t1 : datetime }.

Global Instance Block_eq_dec : EqDecision Block.
Proof. solve_decision. Defined.

(** Modelled from the spec: the overlap test between two blocks.  The spec
    leaves open whether touching end points count as overlapping, so the
    convention is the flag [touching]: closed intervals when it is set, open
    intervals otherwise. *)
Definition block_overlap (touching : bool) (a b : Block) : bool :=
  if touching
  then bool_decide (t0 a ≤ t1 b) && bool_decide (t0 b ≤ t1 a)
  else bool_decide (t0 a < t1 b) && bool_decide (t0 b < t1 a).

(** Modelled from the spec: [core.seq_sort] on a flat sequence, a stable sort by
    [t0] (insertion from the right keeps equal keys in traversal order). *)
Fixpoint seq_sort_insert (b : Block) (seq : list Block) : list Block :=
  match seq with
  | [] => [b]
  | c :: rest =>
      if bool_decide (t0 b ≤ t0 c) then b :: c :: rest
      else c :: seq_sort_insert b rest
  end.

Definition seq_sort (seq : list Block) : list Block :=
  foldr seq_sort_insert [] seq.

(** ** The round-robin resolver ([round_robin] in [policies/sat.py]) *)

Section round_robin.
Context {B : Type} `{!EqDecision B}.

(** The pairwise overlap test behind [core.seq_has_overlap_with_block]. *)
Variable overlaps : B → B → bool.

(** Modelled from the spec: [core.seq_has_overlap_with_block(seq, block)] is
    true when [block] intersects some block already in [seq]. *)
Definition seq_has_overlap_with_block (seq : list B) (block : B) : bool :=
  existsb (λ b, overlaps b block) seq.

(** The local variables of the generator, as they stand at the head of the
    [while True] loop. *)
Record rr_state := RRState {
  block_idx : list nat;
  seq_i : nat;
  block_i : list nat;
  merged : list B;
}.

(** What one pass through the loop body does: [return], an exception, going
    round again silently, or [yield block_v]. *)
Inductive rr_event :=
  | Return
  | Raise
  | Continue (s : rr_state)
  | Yield (block_v : B) (s : rr_state).

Variable seqs_q : list (list B).
Variable seqs_v : list (list B).
(** [None] is Python's [sun_avoidance=None]; a rule maps a block to a block
    or to the absent marker. *)
Variable sun_avoidance : option (B → option B).

Definition n_seq : nat := length seqs_q.

Definition rr_init : rr_state :=
  {| block_idx := replicate n_seq 0%nat;
     seq_i := 0;
     block_i := replicate n_seq 0%nat;
     merged := [] |}.

(** [all([block_idx[i] >= len(seqs_q[i]) for i in range(n_seq)])] *)
Definition all_exhausted (s : rr_state) : option bool :=
  flags ← mapM (λ i, c ← block_idx s !! i; seq_q ← seqs_q !! i;
                     Some (bool_decide (length seq_q ≤ c)%nat))
               (seq 0 n_seq);
  Some (forallb id flags).

(** [block_i[i] += 1] *)
Definition incr (i : nat) (cursors : list nat) : option (list nat) :=
  c ← cursors !! i; Some (<[i := (c + 1)%nat]> cursors).

Definition next_seq (i : nat) : nat := ((i + 1) mod n_seq)%nat.

(** "can we schedule this block?": it does not overlap the accepted blocks
    and, when a rule is given, the rule returns it unchanged
    ([ok *= block_q == sun_avoidance(block_q)]). *)
Definition can_schedule (merged : list B) (block_q : B) : bool :=
  let ok := negb (seq_has_overlap_with_block merged block_q) in
  match sun_avoidance with
  | Some rule => ok && bool_decide (Some block_q = rule block_q)
  | None => ok
  end.

(** One pass through the body of [while True]; [None] is an [IndexError]. *)
Definition rr_body (s : rr_state) : option rr_event :=
  done ← all_exhausted s;
  if done : bool then Some Return else
  c ← block_i s !! seq_i s;
  seq_q ← seqs_q !! seq_i s;
  if bool_decide (length seq_q ≤ c)%nat then
    Some (Continue {| block_idx := block_idx s; seq_i := next_seq (seq_i s);
                      block_i := block_i s; merged := merged s |})
  else
  seq_v ← seqs_v !! seq_i s;
  block_q ← seq_q !! c;
  block_v ← seq_v !! c;
  if can_schedule (merged s) block_q then
    let seq_i' := next_seq (seq_i s) in
    cursors ← incr seq_i' (block_i s);
    Some (Yield block_v {| block_idx := block_idx s; seq_i := seq_i';
                           block_i := cursors;
                           merged := merged s ++ [block_q] |})
  else
    cursors ← incr (seq_i s) (block_i s);
    Some (Continue {| block_idx := block_idx s; seq_i := seq_i s;
                      block_i := cursors; merged := merged s |}).

Definition rr_step (s : rr_state) : rr_event := default Raise (rr_body s).

(** How far a bounded run of the generator got. *)
Inductive rr_status :=
  | Exhausted
  | Raised
  | Running (s : rr_state).

(** The blocks yielded within [fuel] passes through the loop, in order. *)
Fixpoint rr_run (fuel : nat) (s : rr_state) : list B * rr_status :=
  match fuel with
  | O => ([], Running s)
  | S fuel' =>
      match rr_step s with
      | Return => ([], Exhausted)
      | Raise => ([], Raised)
      | Continue s' => rr_run fuel' s'
      | Yield block_v s' =>
          let '(out, st) := rr_run fuel' s' in (block_v :: out, st)
      end
  end.

(** *** Predicates on the generator's state and output *)

(** [block_idx] is as it was created: all zeros. *)
Definition idx_untouched (s : rr_state) : Prop :=
  block_idx s = replicate n_seq 0%nat.

(** Some candidate list holds at least one block. *)
Definition some_candidate : Prop :=
  ∃ i b seq_q, seqs_q !! i = Some (b :: seq_q).

(** Every cursor of [block_i] is at or past the end of its candidate list. *)
Definition cursors_at_end (s : rr_state) : Prop :=
  Forall2 (λ c (seq_q : list B), (length seq_q ≤ c)%nat) (block_i s) seqs_q.

(** No block of [seq] overlaps a block that comes after it. *)
Definition ordered_free (seq : list B) : Prop :=
  ∀ i j a b, (i < j)%nat → seq !! i = Some a → seq !! j = Some b →
             overlaps a b = false.

(** No two blocks of [seq], at different positions, overlap. *)
Definition non_overlapping (seq : list B) : Prop :=
  ∀ i j a b, i ≠ j → seq !! i = Some a → seq !! j = Some b →
             overlaps a b = false.

(** Two rules are the same rule for a run when both are missing or when they
    return the same thing on every candidate block. *)
Definition same_rule (rule1 rule2 : option (B → option B)) : Prop :=
  match rule1, rule2 with
  | None, None => True
  | Some f, Some g => ∀ seq_q b, seq_q ∈ seqs_q → b ∈ seq_q → f b = g b
  | _, _ => False
  end.
End round_robin.

Arguments rr_state : clear implicits.
Arguments rr_event : clear implicits.
Arguments rr_status : clear implicits.

(** [round_robin(seqs_q, seqs_v, sun_avoidance)] driven for [fuel] passes
    through its loop: [seqs_v=None] defaults the values to the queries, and
    the [assert] on the two lengths raises before the loop. *)
Definition round_robin {B} `{!EqDecision B} (overlaps : B → B → bool)
    (seqs_q : list (list B)) (seqs_v : option (list (list B)))
    (sun_avoidance : option (B → option B)) (fuel : nat)
    : list B * rr_status B :=
  let seqs_v := default seqs_q seqs_v in
  if bool_decide (length seqs_q = length seqs_v)
  then rr_run overlaps seqs_q seqs_v sun_avoidance fuel (rr_init seqs_q)
  else ([], Raised).

Definition scenario_A_q : list (list Block) :=
  [[mkBlock 1 2; mkBlock 3 4]; [mkBlock 5 6]].
Definition scenario_B_q : list (list Block) :=
  [[mkBlock 1 3; mkBlock 2 4]; [mkBlock 6 7]].
Definition scenario_B_v : list (list Block) :=
  [[mkBlock 10 15; mkBlock 20 25]; [mkBlock 30 35]].

(** ** Instrument state and the registered operations ([policies/sat.py])

    The state handed to every operation is a Python [dict] keyed by strings.
    Reading a missing key raises [KeyError] and a badly typed value raises
    [TypeError]; both are the [None] of the option monad. *)

Inductive Val :=
  | VNone
  | VBool (b : bool)
  | VNum (x : number)
  | VTime (t : datetime).

Global Instance Val_eq_dec : EqDecision Val.
Proof. solve_decision. Defined.

Abbreviation State := (gmap string Val).

(** The number a value counts as in a comparison ([True == 1]). *)
Definition as_number (v : Val) : option number :=
  match v with
  | VBool b => Some (Finite (if b then 1%Qc else 0%Qc))
  | VNum x => Some x
  | VNone | VTime _ => None
  end.

(** Python's [a == b] and [a != b].  A NaN is unequal to every value, itself
    included. *)
Definition py_eq (a b : Val) : bool :=
  match as_number a, as_number b with
  | Some x, Some y => num_eq x y
  | None, None => bool_decide (a = b)
  | _, _ => false
  end.

Definition py_ne (a b : Val) : bool := negb (py_eq a b).

(** A block attribute that may be [None], as a value. *)
Definition opt_val (x : option number) : Val := from_option VNum VNone x.

(** [a - b] on two [datetime] values. *)
Definition datetime_sub (a b : Val) : option timedelta :=
  match a, b with
  | VTime ta, VTime tb => Some (ta - tb)
  | _, _ => None
  end.

Definition relock_commands : list string :=
  [ "############# Daily Relock ######################";
    "for smurf in pysmurfs:";
    "    smurf.zero_biases.start()";
    "for smurf in pysmurfs:";
    "    smurf.zero_biases.wait()";
    "";
    "time.sleep(120)";
    "run.smurf.take_noise(concurrent=True, tag='oper,take_noise,res_check')";
    "";
    "run.smurf.uxm_relock(concurrent=True)";
    "#################################################" ].

(** The test that sets [doit] in [ufm_relock]. *)
Definition relock_due (state : State) : option bool :=
  last ← state !! "last_ufm_relock";
  if bool_decide (last = VNone) then Some true
  else
    curr ← state !! "curr_time";
    elapsed ← datetime_sub curr last;
    Some (bool_decide (Qc_of_Z (12 * hour) < total_seconds elapsed)%Qc).

(** [ufm_relock(state)]: the state after the call and the returned
    [(duration, commands)]. *)
Definition ufm_relock (state : State) : option (State * (Z * list string)) :=
  doit ← relock_due state;
  if doit : bool then
    curr ← state !! "curr_time";
    Some (<["last_ufm_relock" := curr]> state, (15 * minute, relock_commands))
  else
    Some (state, (0, ["# no ufm relock needed at this time"])).

Section set_scan_params.
(** How an f-string prints a value. *)
Variable str : Val → string.

(** The condition of the [if]; [or] reads the second key only when the first
    comparison is false. *)
Definition scan_params_differ (state : State) (az_speed az_accel : Val)
    : option bool :=
  speed_now ← state !! "az_speed_now";
  if py_ne az_speed speed_now then Some true
  else accel_now ← state !! "az_accel_now"; Some (py_ne az_accel accel_now).

(** [set_scan_params(state, az_speed, az_accel)]: the state after the call
    and the returned commands. *)
Definition set_scan_params (state : State) (az_speed az_accel : Val)
    : option (State * list string) :=
  differ ← scan_params_differ state az_speed az_accel;
  if differ : bool then
    Some (<["az_accel_now" := az_accel]> (<["az_speed_now" := az_speed]> state),
          ["run.acu.set_scan_params(" +:+ str az_speed +:+ ", "
             +:+ str az_accel +:+ ")"])
  else Some (state, []).
End set_scan_params.

(** ** The operation sequencer ([SATPolicy.seq2cmd] in [policies/sat.py]) *)

(** The blocks [seq2cmd] walks: a [core.Block] interval with the attributes
    the method reads.  [boresight_angle] and [boresight_rot] may be [None]. *)
Record ScanBlock := mkScanBlock {
  interval :> Block;
  name : string;
  az : number;
  alt : number;
  throw : number;
  az_drift : number;
  subtype : string;
  tag : string;
  boresight_angle : option number;
  boresight_rot : option number;
}.


(** The local variables of [seq2cmd] that live across iterations of
    [for block in seq]. *)
Record seq_state := SeqState {
  commands : list string;
  t_cur : datetime;
  is_det_setup : bool;
  is_hwp_spinning : bool;
  cur_boresight_angle : option number;
}.

(** The module-level names [seq2cmd] reads.  [cmd.operation] (module
    [schedlib/commands.py] is not part of the sources) is taken to register a
    function and to leave its name bound to that function, as the calls that
    [det_setup] itself makes to [hwp_spin_down] and [hwp_spin_up] need.

    [commands += op], for [op] one of [ufm_relock], [hwp_spin_up],
    [hwp_spin_down] and [wrap_up]: the name is bound to the function
    registered in lines 200-269, and a function is not iterable, so the
    statement raises [TypeError] and yields no lines. *)
Definition operation_lines : option (list string) := None.

(** [det_setup(block.az, block.alt, t_start)]: the function of line 285 takes
    [(state, block, disable_hwp)], so its first test reads the attribute [az]
    of the number passed as [block] and raises [AttributeError]. *)
Definition det_setup_lines (az alt : number) (t_start : datetime)
    : option (list string) := None.

Section seq2cmd.
(** Attributes of the policy object.  [time_costs] and the flag [ufm_relock]
    are read from [self] but no class of the sources declares them; they are
    whatever the caller stored there. *)
Variable time_costs : gmap string Z.
Variable self_ufm_relock : bool.
Variable az_speed az_accel : number.
Variable apply_boresight_rot : bool.

(** The lines of the preamble file when [self.preamble_file] names a file
    that exists, and [None] otherwise. *)
Variable preamble_file : option (list string).

(** How the f-strings print their arguments. *)
Variable isoformat : datetime → string.
Variable repr_datetime : datetime → string.
Variable str_datetime : datetime → string.
Variable str_block : ScanBlock → string.
Variable str_num : number → string.
Variable str_opt : option number → string.
Variable str_round3 : number → string.
Variable str_round5 : number → string.
Variable str_mod360_round3 : number → string.

(** [setup_time += self.time_costs[key]] *)
Definition add_cost (key : string) (setup_time : Z) : option Z :=
  cost ← time_costs !! key; Some (setup_time + cost).

(** The setup time computed at the top of the loop body. *)
Definition setup_time (st : seq_state) (block : ScanBlock) : option Z :=
  t ← (if negb (is_det_setup st) || bool_decide (subtype block = "cal")
       then add_cost "det_setup" 0 else Some 0);
  t ← (if negb (is_hwp_spinning st)
       then add_cost "hwp_spin_up" t else Some t);
  if is_hwp_spinning st && bool_decide (subtype block = "cal")
  then t ← add_cost "hwp_spin_down" t; add_cost "hwp_spin_up" t
  else Some t.

(** The guard of the skip:
    [block.subtype == 'cmb' and t_cur + timedelta(seconds=setup_time) > block.t1]. *)
Definition insufficient_time (st : seq_state) (block : ScanBlock)
    (setup : Z) : bool :=
  bool_decide (subtype block = "cmb")
  && bool_decide (t1 block < t_cur st + timedelta_of_seconds setup).

(** The line made of three double quotes that opens and closes the note. *)
Definition triple_quote : string :=
  let q := "034"%char in String q (String q (String q EmptyString)).

Definition skip_note (block : ScanBlock) : list string :=
  [ triple_quote;
    "Note: " +:+ str_block block +:+ " skipped due to insufficient time";
    triple_quote ].

(** The boresight command, issued by both branches under the same test. *)
Definition set_boresight (st : seq_state) (block : ScanBlock) : seq_state :=
  if apply_boresight_rot
     && bool_decide (boresight_angle block ≠ None)
     && py_ne (opt_val (boresight_rot block))
              (opt_val (cur_boresight_angle st))
  then {| commands := commands st ++
            ["run.acu.set_boresight(" +:+ str_opt (boresight_angle block) +:+ ")"];
          t_cur := t_cur st; is_det_setup := is_det_setup st;
          is_hwp_spinning := is_hwp_spinning st;
          cur_boresight_angle := boresight_rot block |}
  else st.

Definition add_commands (lines : list string) (st : seq_state) : seq_state :=
  {| commands := commands st ++ lines; t_cur := t_cur st;
     is_det_setup := is_det_setup st; is_hwp_spinning := is_hwp_spinning st;
     cur_boresight_angle := cur_boresight_angle st |}.

Definition set_det_setup (st : seq_state) : seq_state :=
  {| commands := commands st; t_cur := t_cur st; is_det_setup := true;
     is_hwp_spinning := is_hwp_spinning st;
     cur_boresight_angle := cur_boresight_angle st |}.

Definition set_hwp_spinning (b : bool) (st : seq_state) : seq_state :=
  {| commands := commands st; t_cur := t_cur st;
     is_det_setup := is_det_setup st; is_hwp_spinning := b;
     cur_boresight_angle := cur_boresight_angle st |}.

Definition set_t_cur (t : datetime) (st : seq_state) : seq_state :=
  {| commands := commands st; t_cur := t; is_det_setup := is_det_setup st;
     is_hwp_spinning := is_hwp_spinning st;
     cur_boresight_angle := cur_boresight_angle st |}.

(** The commands of an observation block: the wait for its start, and the
    scan. *)
Definition cmb_wait_lines (block : ScanBlock) : list string :=
  [ "";
    "#~~~~~~~~~~~~~~~~~~~~~~~";
    "run.wait_until('" +:+ isoformat (t0 block) +:+ "')" ].

Definition cmb_scan_lines (block : ScanBlock) : list string :=
  [ "run.acu.move_to(az=" +:+ str_round3 (az block) +:+ ", el="
      +:+ str_round3 (alt block) +:+ ")";
    "run.smurf.bias_step(concurrent=True)";
    "run.seq.scan(";
    "        description='" +:+ name block +:+ "',";
    "        stop_time='" +:+ isoformat (t1 block) +:+ "',";
    "        width=" +:+ str_round3 (throw block) +:+ ", az_drift=0,";
    "        subtype='cmb', tag='" +:+ tag block +:+ "',";
    ")";
    "run.smurf.bias_step(concurrent=True)";
    "#~~~~~~~~~~~~~~~~~~~~~~~";
    "" ].

(** The branch [if block.subtype == 'cmb'] of a block that is not skipped;
    [None] is the exception raised by the detector setup or by the HWP
    spin-up. *)
Definition plan_cmb (st : seq_state) (block : ScanBlock) (setup : Z)
    : option seq_state :=
  st ← (if negb (is_det_setup st) then
          let t_start := t0 block - timedelta_of_seconds setup in
          lines ← det_setup_lines (az block) (alt block) t_start;
          Some (set_det_setup (add_commands lines st))
        else Some st);
  st ← (if negb (is_hwp_spinning st) then
          lines ← operation_lines;
          Some (set_hwp_spinning true (add_commands lines st))
        else Some st);
  let st := add_commands (cmb_wait_lines block) st in
  let st := set_boresight st block in
  Some (add_commands (cmb_scan_lines block) st).

(** The scan commands of a calibration block. *)
Definition cal_scan_lines (block : ScanBlock) : list string :=
  [ "################# Scan #################################";
    "";
    "now = datetime.datetime.now(tz=UTC)";
    "scan_start = " +:+ repr_datetime (t0 block);
    "scan_stop = " +:+ repr_datetime (t1 block);
    "if now > scan_start:";
    "    # adjust scan parameters";
    "    az = " +:+ str_mod360_round3 (az block) +:+ " + "
      +:+ str_round5 (az_drift block) +:+ "*(now-scan_start).total_seconds()";
    "else: ";
    "    az = " +:+ str_mod360_round3 (az block);
    "if now > scan_stop:";
    "    # too late, don't scan";
    "    pass";
    "else:";
    "    run.acu.move_to(az, " +:+ str_round3 (alt block) +:+ ")";
    "";
    "    print('Waiting until " +:+ str_datetime (t0 block) +:+ " to start scan')";
    "    run.wait_until('" +:+ isoformat (t0 block) +:+ "')";
    "";
    "    run.seq.scan(";
    "        description='" +:+ name block +:+ "', ";
    "        stop_time='" +:+ isoformat (t1 block) +:+ "', ";
    "        width=" +:+ str_round3 (throw block) +:+ ", ";
    "        az_drift=" +:+ str_round5 (az_drift block) +:+ ", ";
    "        subtype='" +:+ subtype block +:+ "',";
    "        tag='" +:+ tag block +:+ "',";
    "    )";
    "    print('Taking Bias Steps')";
    "    run.smurf.bias_step(concurrent=True)";
    "################# Scan Over #############################" ].

(** The branch [if block.subtype == 'cal'] of a block that is not skipped;
    [None] is the exception raised by the HWP spin-down or by the detector
    setup. *)
Definition plan_cal (st : seq_state) (block : ScanBlock) (setup : Z)
    : option seq_state :=
  let t_start := t0 block - timedelta_of_seconds setup in
  '(st, t_start) ←
    (if is_hwp_spinning st then
       lines ← operation_lines;
       let st := set_hwp_spinning false (add_commands lines st) in
       cost ← time_costs !! "hwp_spin_down";
       Some (st, t_start + timedelta_of_seconds cost)
     else Some (st, t_start));
  lines ← det_setup_lines (az block) (alt block) t_start;
  let st := set_det_setup (add_commands lines st) in
  let st := set_boresight st block in
  st ← (if negb (is_hwp_spinning st) then
          lines ← operation_lines;
          Some (set_hwp_spinning true (add_commands lines st))
        else Some st);
  Some (add_commands (cal_scan_lines block) st).

(** One iteration of [for block in seq]; [None] is an exception: a
    [KeyError] of [time_costs] or one raised while planning. *)
Definition seq2cmd_block (st : seq_state) (block : ScanBlock)
    : option seq_state :=
  setup ← setup_time st block;
  if insufficient_time st block setup then
    Some (add_commands (skip_note block) st)
  else
    st ← (if bool_decide (subtype block = "cmb")
          then plan_cmb st block setup else Some st);
    st ← (if bool_decide (subtype block = "cal")
          then plan_cal st block setup else Some st);
    cost ← time_costs !! "bias_step";
    Some (set_t_cur (t1 block + timedelta_of_seconds cost) st).

Fixpoint seq2cmd_loop (st : seq_state) (seq : list ScanBlock)
    : option seq_state :=
  match seq with
  | [] => Some st
  | block :: rest => st ← seq2cmd_block st block; seq2cmd_loop st rest
  end.

(** The state in which [seq2cmd] enters its loop. *)
Definition seq2cmd_start (lines : list string) (t : datetime) : seq_state :=
  {| commands := lines; t_cur := t;
     is_det_setup := false; is_hwp_spinning := false;
     cur_boresight_angle := None |}.

End seq2cmd.

(** A concrete setting to run the sequencer in: costs in seconds, the state
    in which the loop starts with the clock at one hour, and a block that
    ends ten minutes later, too early for the twenty-one minutes of setup it
    needs. *)
Definition example_costs : gmap string Z :=
  list_to_map [ ("det_setup", 60); ("hwp_spin_up", 1200);
                ("hwp_spin_down", 600); ("bias_step", 60);
                ("ufm_relock", 900) ].

Definition example_state : seq_state :=
  seq2cmd_start [] (timedelta_of_seconds 3600).

(** The same state with detectors set up and the HWP spinning. *)
Definition example_steady_state : seq_state :=
  set_hwp_spinning true (set_det_setup example_state).

Definition example_block (subtype : string) : ScanBlock :=
  {| interval := mkBlock (timedelta_of_seconds 3000) (timedelta_of_seconds 4200);
     name := "block"; az := num 180; alt := num 60;
     throw := num 20; az_drift := num 0; subtype := subtype; tag := "";
     boresight_angle := None; boresight_rot := None |}.


Definition example_seq2cmd_loop
    : seq_state → list ScanBlock → option seq_state :=
  seq2cmd_loop example_costs false (λ _, "") (λ _, "") (λ _, "") (λ _, "")
    (λ _, "") (λ _, "") (λ _, "") (λ _, "").

(** ** Instrument specs ([get_spec] in [instrument.py]) *)

(** A leaf of a specs tree: the dict with keys ['bounds_x'] and ['bounds_y'],
    each a two-element list [[lower, upper]]. *)
Record Spec := mkSpec {
  bounds_x : number * number;
  bounds_y : number * number;
}.

(** A pytree of nested dicts as [jax.tree_util] sees it: a leaf, [None]
    (which jax treats as a node without children), or a dict whose entries
    are listed in the order jax visits them. *)
#[local] Unset Elimination Schemes.
Inductive Tree (A : Type) :=
  | TLeaf (x : A)
  | TNone
  | TDict (children : list (string * Tree A)).
#[local] Set Elimination Schemes.
Arguments TLeaf {A} x.
Arguments TNone {A}.
Arguments TDict {A} children.

Abbreviation SpecsTree := (Tree Spec).

(** [tu.tree_map_with_path(f, tree, is_leaf=is_leaf)], where a leaf that [f]
    sends to [None] becomes the childless node. *)
Fixpoint tree_map_with_path {A} (f : list string → A → option A)
    (path : list string) (tree : Tree A) : Tree A :=
  match tree with
  | TLeaf x => match f path x with Some y => TLeaf y | None => TNone end
  | TNone => TNone
  | TDict children =>
      TDict ((fix go (l : list (string * Tree A)) :=
                match l with
                | [] => []
                | (key, sub) :: rest =>
                    (key, tree_map_with_path f (path ++ [key]) sub) :: go rest
                end) children)
  end.

(** [tu.tree_leaves(tree, is_leaf=is_leaf)] *)
Fixpoint tree_leaves {A} (tree : Tree A) : list A :=
  match tree with
  | TLeaf x => [x]
  | TNone => []
  | TDict children =>
      (fix go (l : list (string * Tree A)) :=
         match l with
         | [] => []
         | (_, sub) :: rest => tree_leaves sub ++ go rest
         end) children
  end.

(** Every leaf of a tree with the path of keys that leads to it. *)
Fixpoint leaves_with_path {A} (path : list string) (tree : Tree A)
    : list (list string * A) :=
  match tree with
  | TLeaf x => [(path, x)]
  | TNone => []
  | TDict children =>
      (fix go (l : list (string * Tree A)) :=
         match l with
         | [] => []
         | (key, sub) :: rest =>
             leaves_with_path (path ++ [key]) sub ++ go rest
         end) children
  end.

(** Modelled from the spec: [utils.path2key], the keys of a path joined by
    dots (module [schedlib/utils.py] is not part of the sources). *)
Definition path2key (path : list string) : string := String.concat "." path.

(** Python's [p in key] on strings: [p] occurs in [key] as a substring. *)
Fixpoint str_in (p key : string) : bool :=
  if String.prefix p key then true
  else match key with
       | EmptyString => false
       | String _ key' => str_in p key'
       end.

(** [match_p = lambda key: any([p in key for p in query])] *)
Definition match_p (query : list string) (key : string) : bool :=
  existsb (λ p, str_in p key) query.

(** Python's two-argument [min] and [max]: the second argument is taken
    only when it compares strictly below (above) the first, so the first
    wins a tie and also every comparison with NaN. *)
Definition py_min (a b : number) : number := if num_lt b a then b else a.
Definition py_max (a b : number) : number := if num_lt a b then b else a.

Definition reduce_fn (l r : Spec) : Spec :=
  {| bounds_x := (py_min (bounds_x l).1 (bounds_x r).1,
                  py_max (bounds_x l).2 (bounds_x r).2);
     bounds_y := (py_min (bounds_y l).1 (bounds_y r).1,
                  py_max (bounds_y l).2 (bounds_y r).2) |}.

(** The list [all_matches] of [get_spec]. *)
Definition all_matches (specs : SpecsTree) (query : list string) : list Spec :=
  tree_leaves
    (tree_map_with_path
       (λ path x, if match_p query (path2key path) then Some x else None)
       [] specs).

(** What [get_spec] returns: the list of matches when [merge] is false, the
    empty dict [{}], or one reduced leaf. *)
Inductive spec_result :=
  | Matches (specs : list Spec)
  | EmptyDict
  | Reduced (spec : Spec).

(** The two [return]s of the [merge=True] path. *)
Definition merge_matches (all_matches : list Spec) : spec_result :=
  match all_matches with
  | [] => EmptyDict
  | first :: rest => Reduced (foldl reduce_fn first rest)
  end.

Definition get_spec (specs : SpecsTree) (query : list string) (merge : bool)
    : spec_result :=
  let all_matches := all_matches specs query in
  if negb merge then Matches all_matches else merge_matches all_matches.

(** The leaves of [specs] whose dot-joined path contains a query string. *)
Definition matching_leaves (specs : SpecsTree) (query : list string)
    : list Spec :=
  (filter (λ pl, match_p query (path2key pl.1) = true)
          (leaves_with_path [] specs)).*2.

(** [m] is the least (greatest) element of [l]. *)
Definition is_min (m : number) (l : list number) : Prop :=
  m ∈ l ∧ ∀ x, x ∈ l → num_le m x = true.
Definition is_max (m : number) (l : list number) : Prop :=
  m ∈ l ∧ ∀ x, x ∈ l → num_le x m = true.

(** [spec] spans [specs]: each lower bound is the least lower bound of
    [specs] and each upper bound the greatest upper bound, per axis. *)
Definition spans (spec : Spec) (specs : list Spec) : Prop :=
  is_min (bounds_x spec).1 ((λ s, (bounds_x s).1) <$> specs) ∧
  is_max (bounds_x spec).2 ((λ s, (bounds_x s).2) <$> specs) ∧
  is_min (bounds_y spec).1 ((λ s, (bounds_y s).1) <$> specs) ∧
  is_max (bounds_y spec).2 ((λ s, (bounds_y s).2) <$> specs).

(** A small specs tree: two wafers under one tube and one under another. *)
Definition example_specs : SpecsTree :=
  TDict [ ("tube1",
           TDict [ ("ws0", TLeaf (mkSpec (num (-1), num 1) (num (-2), num 2)));
                   ("ws1", TLeaf (mkSpec (num 0, num 2) (num (-1), num 1))) ]);
          ("tube2",
           TDict [ ("ws0", TLeaf (mkSpec (num (-2), num 0) (num 0, num 1))) ]) ].

(** None of the four bounds of a leaf is NaN. *)
Definition spec_no_nan (spec : Spec) : bool :=
  negb (is_nan (bounds_x spec).1) && negb (is_nan (bounds_x spec).2)
  && negb (is_nan (bounds_y spec).1) && negb (is_nan (bounds_y spec).2).

(** Two leaves that differ in one lower bound, NaN in the first. *)
Definition nan_leaf : Spec := mkSpec (NaN, num 1) (num 0, num 1).
Definition zero_leaf : Spec := mkSpec (num 0, num 1) (num 0, num 1).

(** ** The other registered operations of [policies/sat.py] *)

(** Python's truth value of a state entry, as [not x] and [if x] read it. *)
Definition truthy (v : Val) : bool :=
  match v with
  | VNone => false
  | VBool b => b
  | VNum x => negb (num_eq x (Finite 0))
  | VTime _ => true
  end.

(** [wrap_up(state)] *)
Definition wrap_up (state : State) : State * list string :=
  (<["el_now" := VNum (num 48)]> (<["az_now" := VNum (num 180)]> state),
   [ "# go home";
     "run.acu.move_to(az=180, el=48)";
     "";
     "time.sleep(1)" ]).

(** [hwp_spin_up(state, disable_hwp)]; [and] reads the state only when the
    HWP is not disabled. *)
Definition hwp_spin_up (state : State) (disable_hwp : bool)
    : option (State * (Z * list string)) :=
  start ← (if disable_hwp then Some false
           else spinning ← state !! "hwp_spinning";
                Some (negb (truthy spinning)));
  if start : bool then
    Some (<["hwp_spinning" := VBool true]> state,
          (20 * minute,
           [ "############# Start HWP ######################";
             "HWPPrep()";
             "forward = True";
             "hwp_freq = 2.0";
             "HWPSpinUp()" ]))
  else Some (state, (0, ["# hwp disabled or already spinning"])).

(** [hwp_spin_down(state, disable_hwp)] *)
Definition hwp_spin_down (state : State) (disable_hwp : bool)
    : option (State * (Z * list string)) :=
  stop ← (if disable_hwp then Some false
          else spinning ← state !! "hwp_spinning"; Some (truthy spinning));
  if stop : bool then
    Some (<["hwp_spinning" := VBool false]> state,
          (10 * minute,
           [ "############# Stop HWP ######################";
             "HWPFastStop()";
             "HWPPost()";
             "hwp_freq = 0.0" ]))
  else Some (state, (0, ["# hwp disabled or not spinning"])).

(** [block.az != state['az_now'] or block.alt != state['el_now']], the test
    [det_setup] and [setup_boresight] share. *)
Definition pointing_differs (state : State) (block : ScanBlock)
    : option bool :=
  az_now ← state !! "az_now";
  if py_ne (VNum (az block)) az_now then Some true
  else el_now ← state !! "el_now"; Some (py_ne (VNum (alt block)) el_now).

Section block_operations.
Variable isoformat : datetime → string.
Variable str_opt : option number → string.
Variable str_round3 : number → string.

(** The command list [det_setup] adds.  Its second and third string
    literals are not separated by a comma, so Python joins them into one
    line. *)
Definition det_setup_commands (block : ScanBlock) : list string :=
  [ "";
    "run.wait_until('" +:+ isoformat (t0 block) +:+ "')"
      +:+ "################### Detector Setup######################";
    "run.acu.move_to(az=" +:+ str_round3 (az block) +:+ ", el="
      +:+ str_round3 (alt block) +:+ ")";
    "run.smurf.take_bgmap(concurrent=True)";
    "run.smurf.iv_curve(concurrent=False, settling_time=0.1)";
    "run.smurf.bias_dets(concurrent=True)";
    "time.sleep(180)";
    "run.smurf.bias_step(concurrent=True)";
    "#################### Detector Setup Over ####################";
    "" ].

(** [det_setup(state, block, disable_hwp)].  The call [hwp_spin_down(state)]
    leaves out the argument [disable_hwp], which has no default: it raises
    [TypeError]. *)
Definition det_setup (state : State) (block : ScanBlock) (disable_hwp : bool)
    : option (State * (Z * list string)) :=
  differs ← pointing_differs state block;
  if negb differs then Some (state, (0, [])) else
  spinning ← (if disable_hwp then Some false
              else v ← state !! "hwp_spinning"; Some (truthy v));
  if spinning : bool then None else
  let commands := det_setup_commands block in
  let duration := 0 + 60 in
  start ← (if disable_hwp then Some false
           else v ← state !! "hwp_spinning"; Some (negb (truthy v)));
  if start : bool then
    '(state, (d, c)) ← hwp_spin_up state disable_hwp;
    Some (state, (duration + d, commands ++ c))
  else Some (state, (duration, commands)).

(** [setup_boresight(state, block, apply_boresight_rot)]; the boresight
    command is written without its closing parenthesis, as in the source. *)
Definition setup_boresight (state : State) (block : ScanBlock)
    (apply_boresight_rot : bool) : option (State * list string) :=
  rotate ← (if apply_boresight_rot then
              rot_now ← state !! "boresight_rot_now";
              Some (py_ne rot_now (opt_val (boresight_rot block)))
            else Some false);
  let '(state, commands) :=
    if rotate : bool then
      (<["boresight_rot_now" := opt_val (boresight_rot block)]> state,
       ["run.acu.set_boresight(" +:+ str_opt (boresight_angle block)])
    else (state, []) in
  differs ← pointing_differs state block;
  if differs : bool then
    Some (<["el_now" := VNum (alt block)]>
            (<["az_now" := VNum (az block)]> state),
          commands ++
            ["run.acu.move_to(az=" +:+ str_round3 (az block) +:+ ", el="
               +:+ str_round3 (alt block) +:+ ")"])
  else Some (state, commands).
End block_operations.

(** ** The resolver on one candidate list *)

Section greedy.
Context {B : Type} `{!EqDecision B}.
Variable overlaps : B → B → bool.
Variable sun_avoidance : option (B → option B).

(** Going through [seq] once, keeping each block that can be scheduled
    beside the blocks kept before it. *)
Fixpoint greedy_select (accepted : list B) (seq : list B) : list B :=
  match seq with
  | [] => []
  | b :: rest =>
      if can_schedule overlaps sun_avoidance accepted b
      then b :: greedy_select (accepted ++ [b]) rest
      else greedy_select accepted rest
  end.
End greedy.

(** The shape the generator's variables keep: both cursor lists have one
    entry per candidate and [seq_i] names a candidate (when there is one). *)
Definition rr_wf {B} (seqs_q : list (list B)) (s : rr_state B) : Prop :=
  length (block_idx s) = n_seq seqs_q ∧
  length (block_i s) = n_seq seqs_q ∧
  (n_seq seqs_q = 0%nat ∨ (seq_i s < n_seq seqs_q)%nat).

(** Every value list is at least as long as its query list. *)
Definition values_cover {B} (seqs_q seqs_v : list (list B)) : Prop :=
  Forall2 (λ seq_q seq_v, (length seq_q ≤ length seq_v)%nat) seqs_q seqs_v.

(** [b] is a block of one of the lists [seqs]. *)
Definition candidate {B} (seqs : list (list B)) (b : B) : Prop :=
  ∃ seq, seq ∈ seqs ∧ b ∈ seq.

(** [p] occurs in [key]: some text, then [p], then some text. *)
Definition occurs_in (p key : string) : Prop :=
  ∃ before after, key = before +:+ p +:+ after.

(** The bounds of [outer] enclose those of [inner] on both axes. *)
Definition encloses (outer inner : Spec) : Prop :=
  num_le (bounds_x outer).1 (bounds_x inner).1 = true ∧
  num_le (bounds_x inner).2 (bounds_x outer).2 = true ∧
  num_le (bounds_y outer).1 (bounds_y inner).1 = true ∧
  num_le (bounds_y inner).2 (bounds_y outer).2 = true.

(** The sequencer's time costs are all non-negative. *)
Definition costs_nonneg (time_costs : gmap string Z) : Prop :=
  map_Forall (λ _ cost, 0 ≤ cost) time_costs.

(** An example state for the operations and a block to point at. *)
Definition example_op_state : State :=
  list_to_map
    [ ("curr_time", VTime 0); ("last_ufm_relock", VNone);
      ("az_now", VNum (num 180)); ("el_now", VNum (num 48));
      ("boresight_rot_now", VNum (num 0)); ("hwp_spinning", VBool false);
      ("az_speed_now", VNum (num 1)); ("az_accel_now", VNum (num 2)) ].

(** * Properties of the round-robin resolver *)

Section round_robin_facts.
Context {B : Type} `{!EqDecision B}.
Variable overlaps : B → B → bool.
Variable seqs_q seqs_v : list (list B).
Variable sun_avoidance : option (B → option B).

Local Abbreviation state := (rr_state B).
Local Abbreviation exhausted := (all_exhausted seqs_q).
Local Abbreviation step := (rr_step overlaps seqs_q seqs_v sun_avoidance).
Local Abbreviation body := (rr_body overlaps seqs_q seqs_v sun_avoidance).
Local Abbreviation run := (rr_run overlaps seqs_q seqs_v sun_avoidance).
Local Abbreviation n := (n_seq seqs_q).

(** The exhaustion test reads [block_idx] only. *)
Lemma all_exhausted_Some (s : state) :
  length (block_idx s) = n →
  ∃ b, exhausted s = Some b ∧
    (b = true ↔ ∀ i seq_q, seqs_q !! i = Some seq_q →
                 ∃ c, block_idx s !! i = Some c ∧ (length seq_q ≤ c)%nat).
Proof.
  intros Hlen. unfold all_exhausted.
  set (f := λ i : nat, c ← block_idx s !! i; seq_q ← seqs_q !! i;
                       Some (bool_decide (length seq_q ≤ c)%nat)).
  assert (Hf : ∀ i, (i < n)%nat → is_Some (f i)).
  { intros i Hi. unfold f.
    destruct (lookup_lt_is_Some_2 (block_idx s) i) as [c ->]; [lia|].
    destruct (lookup_lt_is_Some_2 seqs_q i) as [l ->]; [done|].
    simpl. eauto. }
  destruct (mapM f (seq 0 n)) as [flags|] eqn:Hm.
  - exists (forallb id flags). split; [done|].
    apply mapM_Some in Hm.
    rewrite forallb_forall. split.
    + intros Hall i seq_q Hq.
      assert (Hi : (i < n)%nat) by (eapply lookup_lt_Some; eauto).
      destruct (Forall2_lookup_l _ _ _ i i Hm) as (flag & Hflag & Hfi).
      { apply lookup_seq. lia. }
      unfold f in Hfi. rewrite Hq in Hfi.
      destruct (block_idx s !! i) as [c|]; simplify_eq/=.
      exists c. split; [done|].
      specialize (Hall (bool_decide (length seq_q ≤ c)%nat)).
      assert (Hb : bool_decide (length seq_q ≤ c)%nat = true).
      { apply Hall. apply list_elem_of_In. eapply list_elem_of_lookup_2; eauto. }
      by apply bool_decide_eq_true in Hb.
    + intros Hall flag Hin.
      apply list_elem_of_In, list_elem_of_lookup in Hin as [k Hk].
      destruct (Forall2_lookup_r _ _ _ k flag Hm Hk) as (i & Hi & Hfi).
      apply lookup_seq in Hi as [-> Hi]. simpl in Hfi.
      unfold f in Hfi.
      destruct (block_idx s !! k) as [c|] eqn:Hc; simplify_eq/=.
      destruct (seqs_q !! k) as [l|] eqn:Hl; simplify_eq/=.
      destruct (Hall _ _ Hl) as (c' & Hc' & Hle). simplify_eq.
      by apply bool_decide_eq_true_2.
  - exfalso. apply mapM_None in Hm. 
    apply Exists_exists in Hm as (i & Hin & Hnone).
    apply elem_of_seq in Hin. destruct (Hf i) as [? ?]; [lia|congruence].
Qed.

(** A pass that goes round again silently either rotated past a candidate
    whose cursor is at its end, or rejected a block and moved that same
    candidate's cursor by one. *)
Lemma rr_step_Continue_inv (s s' : state) :
  step s = Continue s' →
  block_idx s' = block_idx s ∧ merged s' = merged s ∧
  ∃ c seq_q, block_i s !! seq_i s = Some c ∧ seqs_q !! seq_i s = Some seq_q ∧
    (((length seq_q ≤ c)%nat ∧ seq_i s' = next_seq seqs_q (seq_i s) ∧
      block_i s' = block_i s) ∨
     ((c < length seq_q)%nat ∧ seq_i s' = seq_i s ∧
      block_i s' = <[seq_i s := (c + 1)%nat]> (block_i s))).
Proof.
  unfold rr_step, rr_body, incr. intros Hs.
  destruct (exhausted s) as [[]|]; simplify_eq/=.
  destruct (block_i s !! seq_i s) as [c|] eqn:Hc; simplify_eq/=.
  destruct (seqs_q !! seq_i s) as [seq_q|] eqn:Hq; simplify_eq/=.
  case_bool_decide as Hle.
  { simplify_eq/=. split_and!; [done..|]. exists c, seq_q. split_and!; [done..|]. left. done. }
  destruct (seqs_v !! seq_i s) as [seq_v|]; simplify_eq/=.
  destruct (seq_q !! c) as [block_q|]; simplify_eq/=.
  destruct (seq_v !! c) as [block_v|]; simplify_eq/=.
  destruct (can_schedule overlaps sun_avoidance (merged s) block_q).
  { destruct (block_i s !! next_seq seqs_q (seq_i s)); simplify_eq/=. }
  simplify_eq/=.
  split_and!; [done..|]. exists c, seq_q. split_and!; [done..|]. right.
  split_and!; [lia|done..].
Qed.

(** A pass that yields accepted the current candidate's block: the block does
    not overlap what was accepted before and the rule leaves it unchanged; the
    cursor that moves is the one of the candidate rotated to. *)
Lemma rr_step_Yield_inv (s s' : state) (block_v : B) :
  step s = Yield block_v s' →
  block_idx s' = block_idx s ∧
  seq_i s' = next_seq seqs_q (seq_i s) ∧
  ∃ c seq_q seq_v block_q c',
    block_i s !! seq_i s = Some c ∧ seqs_q !! seq_i s = Some seq_q ∧
    seqs_v !! seq_i s = Some seq_v ∧
    seq_q !! c = Some block_q ∧ seq_v !! c = Some block_v ∧
    can_schedule overlaps sun_avoidance (merged s) block_q = true ∧
    merged s' = merged s ++ [block_q] ∧
    block_i s !! seq_i s' = Some c' ∧
    block_i s' = <[seq_i s' := (c' + 1)%nat]> (block_i s).
Proof.
  unfold rr_step, rr_body, incr. intros Hs.
  destruct (exhausted s) as [[]|]; simplify_eq/=.
  destruct (block_i s !! seq_i s) as [c|] eqn:Hc; simplify_eq/=.
  destruct (seqs_q !! seq_i s) as [seq_q|] eqn:Hq; simplify_eq/=.
  case_bool_decide as Hle; [simplify_eq/=|].
  destruct (seqs_v !! seq_i s) as [seq_v|] eqn:Hv; simplify_eq/=.
  destruct (seq_q !! c) as [block_q|] eqn:Hbq; simplify_eq/=.
  destruct (seq_v !! c) as [bv|] eqn:Hbv; simplify_eq/=.
  destruct (can_schedule overlaps sun_avoidance (merged s) block_q) eqn:Hok.
  2: { simplify_eq/=. }
  destruct (block_i s !! next_seq seqs_q (seq_i s)) as [c'|] eqn:Hc';
    simplify_eq/=.
  split_and!; [done..|].
  exists c, seq_q, seq_v, block_q, c'. split_and!; done.
Qed.

(** No pass through the loop body touches [block_idx]. *)
Lemma rr_run_block_idx (fuel : nat) (s s' : state) (out : list B) :
  run fuel s = (out, Running s') → block_idx s' = block_idx s.
Proof.
  revert s out. induction fuel as [|fuel IH]; intros s out; simpl.
  { intros [= <- <-]. done. }
  destruct (step s) as [| |s1|v s1] eqn:Hstep; try done.
  - intros Hrun. apply IH in Hrun. apply rr_step_Continue_inv in Hstep.
    destruct Hstep as (Heq & _). congruence.
  - destruct (run fuel s1) as [out1 st1] eqn:Hrun. intros [= <- ->].
    apply IH in Hrun. apply rr_step_Yield_inv in Hstep.
    destruct Hstep as (Heq & _). congruence.
Qed.

Lemma exhausted_false (s : state) :
  idx_untouched seqs_q s → some_candidate seqs_q → exhausted s = Some false.
Proof.
  intros Hidx (i & b & seq_q & Hq).
  destruct (all_exhausted_Some s) as (flag & -> & Hflag).
  { rewrite Hidx. apply length_replicate. }
  destruct flag; [|done].
  destruct Hflag as [Hflag _]. destruct (Hflag eq_refl _ _ Hq) as (c & Hc & Hle).
  rewrite Hidx in Hc. apply lookup_replicate in Hc as [-> _]. simpl in Hle. lia.
Qed.

(** With a block to schedule anywhere in the input, no pass ever returns. *)
Lemma rr_step_not_Return (s : state) :
  idx_untouched seqs_q s → some_candidate seqs_q → step s ≠ Return.
Proof.
  intros Hidx Hsome. unfold rr_step, rr_body.
  rewrite (exhausted_false s Hidx Hsome). simpl.
  destruct (block_i s !! seq_i s) as [c|]; [simpl|done].
  destruct (seqs_q !! seq_i s) as [seq_q|]; [simpl|done].
  case_bool_decide; [done|].
  destruct (seqs_v !! seq_i s) as [seq_v|]; [simpl|done].
  destruct (seq_q !! c) as [block_q|]; [simpl|done].
  destruct (seq_v !! c) as [block_v|]; [simpl|done].
  unfold incr.
  destruct (can_schedule _ _ _ _);
    [destruct (block_i s !! next_seq seqs_q (seq_i s))
    |destruct (block_i s !! seq_i s)]; done.
Qed.

Lemma rr_run_never_Exhausted (fuel : nat) (s : state) :
  idx_untouched seqs_q s → some_candidate seqs_q → (run fuel s).2 ≠ Exhausted.
Proof.
  intros Hidx Hsome. revert s Hidx.
  induction fuel as [|fuel IH]; intros s Hidx; simpl; [done|].
  pose proof (rr_step_not_Return s Hidx Hsome) as Hret.
  destruct (step s) as [| |s1|v s1] eqn:Hstep; try done.
  - apply IH. apply rr_step_Continue_inv in Hstep as (Heq & _).
    unfold idx_untouched. congruence.
  - specialize (IH s1). destruct (run fuel s1) as [out st]. simpl in *.
    apply IH. apply rr_step_Yield_inv in Hstep as (Heq & _).
    unfold idx_untouched. congruence.
Qed.

(** Fuel adds up: a run of [a + b] passes is a run of [a] passes followed,
    if the generator is still running, by a run of [b] passes. *)
Lemma rr_run_add (a b : nat) (s : state) :
  run (a + b) s =
    match run a s with
    | (out, Running s') => let '(out', st) := run b s' in (out ++ out', st)
    | r => r
    end.
Proof.
  revert s. induction a as [|a IH]; intros s; simpl.
  { by destruct (run b s). }
  destruct (step s) as [| |s1|v s1]; [done..| |].
  - apply IH.
  - rewrite IH. destruct (run a s1) as [out [| |s2]]; [done..|].
    by destruct (run b s2).
Qed.

(** Once every cursor is at its end, a pass only rotates [seq_i]. *)
Lemma rr_step_spin (s : state) :
  idx_untouched seqs_q s → some_candidate seqs_q → cursors_at_end seqs_q s →
  (seq_i s < n)%nat →
  step s = Continue {| block_idx := block_idx s;
                       seq_i := next_seq seqs_q (seq_i s);
                       block_i := block_i s; merged := merged s |}.
Proof.
  intros Hidx Hsome Hend Hlt. unfold rr_step, rr_body.
  rewrite (exhausted_false s Hidx Hsome). simpl.
  destruct (lookup_lt_is_Some_2 seqs_q (seq_i s) Hlt) as [seq_q Hq].
  destruct (Forall2_lookup_r _ _ _ _ _ Hend Hq) as (c & Hc & Hle).
  rewrite Hc, Hq. simpl. by rewrite bool_decide_eq_true_2.
Qed.

(** ... so the generator yields nothing more, and never stops. *)
Lemma rr_run_spin (fuel : nat) (s : state) :
  idx_untouched seqs_q s → some_candidate seqs_q → cursors_at_end seqs_q s →
  (seq_i s < n)%nat →
  ∃ s', run fuel s = ([], Running s') ∧
        block_i s' = block_i s ∧ merged s' = merged s.
Proof.
  intros Hidx Hsome. revert s Hidx.
  induction fuel as [|fuel IH]; intros s Hidx Hend Hlt; simpl; [by eauto|].
  rewrite (rr_step_spin s) by done.
  destruct (IH {| block_idx := block_idx s;
                  seq_i := next_seq seqs_q (seq_i s);
                  block_i := block_i s; merged := merged s |})
    as (s' & Hrun & Hi & Hm); [done..| |by eauto].
  simpl. unfold next_seq. apply Nat.mod_upper_bound. unfold n_seq in *. lia.
Qed.

Lemma can_schedule_true (accepted : list B) (block_q : B) :
  can_schedule overlaps sun_avoidance accepted block_q = true ↔
  seq_has_overlap_with_block overlaps accepted block_q = false ∧
  ∀ rule, sun_avoidance = Some rule → rule block_q = Some block_q.
Proof.
  unfold can_schedule. destruct sun_avoidance as [rule|].
  - rewrite andb_true_iff, negb_true_iff, bool_decide_eq_true. split.
    + intros [Hov Hrule]. split; [done|]. by intros ? [= <-].
    + intros [Hov Hrule]. split; [done|]. symmetry. by apply Hrule.
  - rewrite negb_true_iff. split; [by intros ->|by intros [-> _]].
Qed.

Lemma ordered_free_snoc (seq : list B) (block : B) :
  ordered_free overlaps seq →
  seq_has_overlap_with_block overlaps seq block = false →
  ordered_free overlaps (seq ++ [block]).
Proof.
  intros Hfree Hov i j a b Hij Ha Hb.
  assert (Hj : (j < length (seq ++ [block]))%nat) by (eapply lookup_lt_Some; eauto).
  rewrite length_app in Hj. simpl in Hj.
  rewrite lookup_app_l in Ha by lia.
  destruct (decide (j = length seq)) as [->|Hne].
  - rewrite list_lookup_middle in Hb by done. simplify_eq.
    unfold seq_has_overlap_with_block in Hov.
    destruct (overlaps a b) eqn:Hab; [|done].
    assert (existsb (λ b0, overlaps b0 b) seq = true); [|congruence].
    apply existsb_exists. exists a. split; [|done].
    apply list_elem_of_In. by eapply list_elem_of_lookup_2.
  - rewrite lookup_app_l in Hb by lia. by eapply (Hfree i j).
Qed.

(** When the values are the queries, what a run yields is what it appends to
    [merged], and [merged] stays free of overlap. *)
Lemma rr_run_ordered_free (fuel : nat) (s : state) (out : list B) st :
  seqs_v = seqs_q →
  run fuel s = (out, st) →
  ordered_free overlaps (merged s) →
  ordered_free overlaps (merged s ++ out) ∧
  ∀ s', st = Running s' → merged s' = merged s ++ out.
Proof.
  intros Hv. revert s out st.
  induction fuel as [|fuel IH]; intros s out st; simpl.
  { intros [= <- <-] Hfree. rewrite app_nil_r. split; [done|]. by intros ? [= <-]. }
  destruct (step s) as [| |s1|v s1] eqn:Hstep.
  - intros [= <- <-] Hfree. rewrite app_nil_r. done.
  - intros [= <- <-] Hfree. rewrite app_nil_r. done.
  - apply rr_step_Continue_inv in Hstep as (_ & Hm & _).
    intros Hrun Hfree. rewrite <-Hm. apply IH; [done|]. by rewrite Hm.
  - apply rr_step_Yield_inv in Hstep
      as (_ & _ & c & seq_q & seq_v & block_q & c' & _ & Hq & Hsv & Hbq & Hbv
          & Hok & Hm & _).
    assert (v = block_q) as -> by (rewrite Hv in Hsv; congruence).
    apply can_schedule_true in Hok as [Hov _].
    destruct (run fuel s1) as [out1 st1] eqn:Hrun. intros [= <- <-] Hfree.
    destruct (IH s1 out1 st1 Hrun) as [Hfree1 Hrunning].
    { rewrite Hm. by apply ordered_free_snoc. }
    rewrite Hm, <-app_assoc in Hfree1, Hrunning. done.
Qed.

Lemma ordered_free_non_overlapping (seq : list B) :
  (∀ a b, overlaps a b = overlaps b a) →
  ordered_free overlaps seq → non_overlapping overlaps seq.
Proof.
  intros Hsym Hfree i j a b Hij Ha Hb.
  destruct (decide (i < j)%nat); [by eapply (Hfree i j)|].
  rewrite Hsym. eapply (Hfree j i); [lia|done..].
Qed.

Lemma non_overlapping_Permutation (seq seq' : list B) :
  seq ≡ₚ seq' → non_overlapping overlaps seq → non_overlapping overlaps seq'.
Proof.
  intros Hperm Hfree i j a b Hij Ha Hb.
  symmetry in Hperm.
  apply Permutation_inj in Hperm as (_ & f & Hinj & Hf).
  rewrite Hf in Ha, Hb. eapply Hfree; [|done..].
  intros Heq. by apply Hinj in Heq.
Qed.
End round_robin_facts.

(** ** Determinism of the resolver *)

Section round_robin_determinism.
Context {B : Type} `{!EqDecision B}.
Variable overlaps : B → B → bool.
Variable seqs_q seqs_v : list (list B).

Lemma can_schedule_same_rule rule1 rule2 accepted seq_q block_q :
  same_rule seqs_q rule1 rule2 → seq_q ∈ seqs_q → block_q ∈ seq_q →
  can_schedule overlaps rule1 accepted block_q =
  can_schedule overlaps rule2 accepted block_q.
Proof.
  unfold can_schedule, same_rule. intros Hsame Hin Hb.
  destruct rule1 as [f|], rule2 as [g|]; try done.
  by rewrite (Hsame seq_q block_q).
Qed.

Lemma rr_body_same_rule rule1 rule2 (s : rr_state B) :
  same_rule seqs_q rule1 rule2 →
  rr_body overlaps seqs_q seqs_v rule1 s = rr_body overlaps seqs_q seqs_v rule2 s.
Proof.
  intros Hsame. unfold rr_body.
  destruct (all_exhausted seqs_q s) as [[]|]; simpl; [done| |done].
  destruct (block_i s !! seq_i s) as [c|]; simpl; [|done].
  destruct (seqs_q !! seq_i s) as [seq_q|] eqn:Hq; simpl; [|done].
  case_bool_decide; [done|].
  destruct (seqs_v !! seq_i s) as [seq_v|]; simpl; [|done].
  destruct (seq_q !! c) as [block_q|] eqn:Hbq; simpl; [|done].
  destruct (seq_v !! c) as [block_v|]; simpl; [|done].
  rewrite (can_schedule_same_rule rule1 rule2 (merged s) seq_q block_q);
    [done..| |]; by eapply list_elem_of_lookup_2.
Qed.

Lemma rr_run_same_rule rule1 rule2 (fuel : nat) (s : rr_state B) :
  same_rule seqs_q rule1 rule2 →
  rr_run overlaps seqs_q seqs_v rule1 fuel s =
  rr_run overlaps seqs_q seqs_v rule2 fuel s.
Proof.
  intros Hsame. revert s. induction fuel as [|fuel IH]; intros s; simpl; [done|].
  unfold rr_step. rewrite (rr_body_same_rule rule1 rule2 s Hsame).
  destruct (default Raise _) as [| |s1|v s1]; [done..| |]; by rewrite IH.
Qed.

(** Identical inputs give identical runs, however long the generator is
    driven; the rule enters only through its values on candidate blocks. *)
Lemma round_robin_same_rule rule1 rule2 (fuel : nat) :
  same_rule seqs_q rule1 rule2 →
  round_robin overlaps seqs_q (Some seqs_v) rule1 fuel =
  round_robin overlaps seqs_q (Some seqs_v) rule2 fuel ∧
  round_robin overlaps seqs_q None rule1 fuel =
  round_robin overlaps seqs_q None rule2 fuel.
Proof.
  intros Hsame. unfold round_robin. simpl. split.
  - case_bool_decide; [|done]. by apply rr_run_same_rule.
  - case_bool_decide; [|done].
    clear -Hsame. revert Hsame. generalize (rr_init seqs_q).
    induction fuel as [|k IH]; intros s Hsame; simpl; [done|].
    unfold rr_step.
    assert (rr_body overlaps seqs_q seqs_q rule1 s =
            rr_body overlaps seqs_q seqs_q rule2 s) as ->.
    { unfold rr_body.
      destruct (all_exhausted seqs_q s) as [[]|]; simpl; [done| |done].
      destruct (block_i s !! seq_i s) as [c|]; simpl; [|done].
      destruct (seqs_q !! seq_i s) as [seq_q|] eqn:Hq; simpl; [|done].
      case_bool_decide; [done|].
      destruct (seq_q !! c) as [block_q|] eqn:Hbq; simpl; [|done].
      rewrite (can_schedule_same_rule rule1 rule2 (merged s) seq_q block_q);
        [done..| |]; by eapply list_elem_of_lookup_2. }
    destruct (default Raise _) as [| |s1|v s1]; [done..| |]; by rewrite IH.
Qed.

(** Driving the generator for longer only extends what it has yielded. *)
Lemma rr_run_prefix rule (fuel fuel' : nat) (s : rr_state B) :
  (fuel ≤ fuel')%nat →
  (rr_run overlaps seqs_q seqs_v rule fuel s).1
    `prefix_of` (rr_run overlaps seqs_q seqs_v rule fuel' s).1.
Proof.
  intros Hle. replace fuel' with (fuel + (fuel' - fuel))%nat by lia.
  rewrite rr_run_add.
  destruct (rr_run overlaps seqs_q seqs_v rule fuel s) as [out [| |s1]];
    [done..|].
  destruct (rr_run overlaps seqs_q seqs_v rule (fuel' - fuel) s1) as [out' st].
  simpl. by apply prefix_app_r.
Qed.
End round_robin_determinism.

(** ** The resolver on intervals *)

Lemma block_overlap_sym (touching : bool) (a b : Block) :
  block_overlap touching a b = block_overlap touching b a.
Proof. unfold block_overlap. destruct touching; apply andb_comm. Qed.

Lemma seq_sort_insert_Permutation (b : Block) (seq : list Block) :
  seq_sort_insert b seq ≡ₚ b :: seq.
Proof.
  induction seq as [|c rest IH]; simpl; [done|].
  case_bool_decide; [done|]. rewrite IH. apply Permutation_swap.
Qed.

Lemma seq_sort_Permutation (seq : list Block) : seq_sort seq ≡ₚ seq.
Proof.
  induction seq as [|b rest IH]; simpl; [done|].
  by rewrite seq_sort_insert_Permutation, IH.
Qed.

(** On an accepted block the cursor that moves is the one of the candidate
    rotated to; the accepted candidate's own cursor stays where it was unless
    the rotation comes back to it. *)
Lemma rr_step_Yield_own_cursor {B} `{!EqDecision B} (overlaps : B → B → bool)
    seqs_q seqs_v rule (s s' : rr_state B) (block_v : B) :
  rr_step overlaps seqs_q seqs_v rule s = Yield block_v s' →
  next_seq seqs_q (seq_i s) ≠ seq_i s →
  block_i s' !! seq_i s = block_i s !! seq_i s.
Proof.
  intros Hstep Hne.
  apply rr_step_Yield_inv in Hstep
    as (_ & Hi & c & seq_q & seq_v & block_q & c' & _ & _ & _ & _ & _ & _ & _
        & _ & ->).
  rewrite Hi. by apply list_lookup_insert_ne.
Qed.

(** The state a scenario reaches once every cursor has run off its list:
    from there the generator yields nothing and keeps running. *)
Lemma rr_run_reaches_spin (touching : bool) seqs_q seqs_v rule
    (k fuel : nat) (out : list Block) (s : rr_state Block) :
  rr_run (block_overlap touching) seqs_q seqs_v rule k (rr_init seqs_q)
    = (out, Running s) →
  some_candidate seqs_q → cursors_at_end seqs_q s →
  (seq_i s < n_seq seqs_q)%nat →
  ∃ s', rr_run (block_overlap touching) seqs_q seqs_v rule (k + fuel)
          (rr_init seqs_q) = (out, Running s')
        ∧ block_i s' = block_i s ∧ merged s' = merged s.
Proof.
  intros Hrun Hsome Hend Hlt. rewrite rr_run_add, Hrun.
  destruct (rr_run_spin (block_overlap touching) seqs_q seqs_v rule fuel s)
    as (s' & -> & Hi & Hm); [|done..|].
  { apply rr_run_block_idx in Hrun. unfold idx_untouched. by rewrite Hrun. }
  exists s'. by rewrite app_nil_r.
Qed.

(** C1 (evaluated on the code): for the single candidate list [[[1, 2]]] the
    resolver yields [[1, 2]] on its first pass, after which the only cursor,
    [block_i = [1]], has reached the end of its list; but the exhaustion test
    reads [block_idx], still [[0]], so however long the generator is driven it
    is still running and never signals exhaustion. *)
Theorem round_robin_never_signals_exhaustion (touching : bool) (fuel : nat) :
  ∃ s, round_robin (block_overlap touching) [[mkBlock 1 2]] None None (S fuel)
         = ([mkBlock 1 2], Running s)
       ∧ block_i s = [1%nat] ∧ block_idx s = [0%nat].
Proof.
  unfold round_robin. simpl default. rewrite bool_decide_eq_true_2 by done.
  destruct (rr_run_reaches_spin touching [[mkBlock 1 2]] [[mkBlock 1 2]] None
              1 fuel [mkBlock 1 2]
              {| block_idx := [0%nat]; seq_i := 0; block_i := [1%nat];
                 merged := [mkBlock 1 2] |})
    as (s' & Hrun & Hi & _).
  - by destruct touching.
  - by exists 0%nat, (mkBlock 1 2), [].
  - repeat constructor.
  - simpl. unfold n_seq. simpl. lia.
  - exists s'. split; [exact Hrun|]. split; [done|].
    apply rr_run_block_idx in Hrun. by rewrite Hrun.
Qed.

(** C3 (evaluated on the code): on the first pass of scenario A the block
    [[1, 2]] of candidate 0 is accepted, yielded and appended to [merged], and
    the rotation moves to candidate 1; but the cursor that is advanced is the
    one of candidate 1, not the one of the accepted candidate 0, because
    [seq_i] is rotated before [block_i[seq_i] += 1]. *)
Theorem round_robin_accept_advances_next_cursor (touching : bool) :
  rr_step (block_overlap touching) scenario_A_q scenario_A_q None
          (rr_init scenario_A_q)
  = Yield (mkBlock 1 2)
      {| block_idx := [0%nat; 0%nat]; seq_i := 1;
         block_i := [0%nat; 1%nat]; merged := [mkBlock 1 2] |}.
Proof. by destruct touching. Qed.

(** A run whose output is a prefix of a shorter list never equals a longer
    one. *)
Lemma prefix_length_ne {A} (l k k' : list A) :
  l `prefix_of` k → (length k < length k')%nat → l ≠ k'.
Proof. intros Hpre Hlen ->. apply prefix_length in Hpre. lia. Qed.

(** C2 (evaluated on the code): scenario A, the candidate lists
    [[[1,2],[3,4]]] and [[[5,6]]] with no values and no rule.  After six
    passes the resolver has yielded [[1,2]] and [[3,4]]; the cursor of the
    second candidate was advanced past [[5,6]] when [[1,2]] was accepted, so
    [[5,6]] is never yielded: the output never is [[1,2],[5,6],[3,4]], and the
    generator never signals exhaustion. *)
Theorem round_robin_scenario_A (touching : bool) (fuel : nat) :
  (∃ s, round_robin (block_overlap touching) scenario_A_q None None (6 + fuel)
          = ([mkBlock 1 2; mkBlock 3 4], Running s)) ∧
  (round_robin (block_overlap touching) scenario_A_q None None fuel).1
    ≠ [mkBlock 1 2; mkBlock 5 6; mkBlock 3 4] ∧
  (round_robin (block_overlap touching) scenario_A_q None None fuel).2
    ≠ Exhausted.
Proof.
  unfold round_robin. simpl default. rewrite bool_decide_eq_true_2 by done.
  assert (Hsome : some_candidate scenario_A_q).
  { by exists 0%nat, (mkBlock 1 2), [mkBlock 3 4]. }
  assert (Hlong : ∀ k, ∃ s,
    rr_run (block_overlap touching) scenario_A_q scenario_A_q None (6 + k)
      (rr_init scenario_A_q) = ([mkBlock 1 2; mkBlock 3 4], Running s)).
  { intros k.
    destruct (rr_run_reaches_spin touching scenario_A_q scenario_A_q None
                6 k [mkBlock 1 2; mkBlock 3 4]
                {| block_idx := [0%nat; 0%nat]; seq_i := 0;
                   block_i := [2%nat; 2%nat];
                   merged := [mkBlock 1 2; mkBlock 3 4] |})
      as (s' & Hrun & _); [by destruct touching|done| | |by eauto].
    - repeat constructor.
    - unfold n_seq. simpl. lia. }
  split; [apply Hlong|]. split.
  - destruct (Hlong fuel) as [s Hs].
    eapply prefix_length_ne; [|shelve].
    pose proof (rr_run_prefix (block_overlap touching) scenario_A_q
                  scenario_A_q None fuel (6 + fuel) (rr_init scenario_A_q)) as Hp.
    rewrite Hs in Hp. apply Hp. lia.
    Unshelve. simpl. lia.
  - by apply rr_run_never_Exhausted.
Qed.

(** C5 (evaluated on the code): scenario B, with values and a rule that
    returns every block unchanged.  [[1,3]] is accepted and [[10,15]]
    yielded; that acceptance advances the cursor of the second candidate past
    [[6,7]], so [[30,35]] is never yielded: after four passes the output is
    [[10,15]] alone and stays so, never [[10,15],[30,35]] (nor the docstring's
    [[20,25],[30,35]]), and the generator never signals exhaustion. *)
Theorem round_robin_scenario_B (touching : bool) (fuel : nat) :
  (∃ s, round_robin (block_overlap touching) scenario_B_q (Some scenario_B_v)
          (Some Some) (4 + fuel) = ([mkBlock 10 15], Running s)) ∧
  (round_robin (block_overlap touching) scenario_B_q (Some scenario_B_v)
     (Some Some) fuel).1 ≠ [mkBlock 10 15; mkBlock 30 35] ∧
  (round_robin (block_overlap touching) scenario_B_q (Some scenario_B_v)
     (Some Some) fuel).1 ≠ [mkBlock 20 25; mkBlock 30 35] ∧
  (round_robin (block_overlap touching) scenario_B_q (Some scenario_B_v)
     (Some Some) fuel).2 ≠ Exhausted.
Proof.
  unfold round_robin. simpl default. rewrite bool_decide_eq_true_2 by done.
  assert (Hsome : some_candidate scenario_B_q).
  { by exists 0%nat, (mkBlock 1 3), [mkBlock 2 4]. }
  assert (Hlong : ∀ k, ∃ s,
    rr_run (block_overlap touching) scenario_B_q scenario_B_v (Some Some)
      (4 + k) (rr_init scenario_B_q) = ([mkBlock 10 15], Running s)).
  { intros k.
    destruct (rr_run_reaches_spin touching scenario_B_q scenario_B_v
                (Some Some) 4 k [mkBlock 10 15]
                {| block_idx := [0%nat; 0%nat]; seq_i := 0;
                   block_i := [2%nat; 1%nat];
                   merged := [mkBlock 1 3] |})
      as (s' & Hrun & _); [by destruct touching|done| | |by eauto].
    - repeat constructor.
    - unfold n_seq. simpl. lia. }
  assert (Hpre : (rr_run (block_overlap touching) scenario_B_q scenario_B_v
                    (Some Some) fuel (rr_init scenario_B_q)).1
                 `prefix_of` [mkBlock 10 15]).
  { destruct (Hlong fuel) as [s Hs].
    pose proof (rr_run_prefix (block_overlap touching) scenario_B_q
                  scenario_B_v (Some Some) fuel (4 + fuel)
                  (rr_init scenario_B_q)) as Hp.
    rewrite Hs in Hp. apply Hp. lia. }
  split; [apply Hlong|].
  split; [eapply prefix_length_ne; [exact Hpre|simpl; lia]|].
  split; [eapply prefix_length_ne; [exact Hpre|simpl; lia]|].
  by apply rr_run_never_Exhausted.
Qed.

(** C4: with the values defaulted to the queries, whatever the resolver has
    yielded after any number of passes, for any candidate lists and any rule,
    contains no two blocks that overlap, and neither does that output
    re-sorted by [t0]. *)
Theorem round_robin_non_overlap (touching : bool)
    (seqs_q : list (list Block)) (rule : option (Block → option Block))
    (fuel : nat) :
  let out := (round_robin (block_overlap touching) seqs_q None rule fuel).1 in
  non_overlapping (block_overlap touching) out ∧
  non_overlapping (block_overlap touching) (seq_sort out).
Proof.
  intros out.
  assert (Hout : non_overlapping (block_overlap touching) out).
  { subst out. unfold round_robin. simpl default.
    rewrite bool_decide_eq_true_2 by done.
    destruct (rr_run (block_overlap touching) seqs_q seqs_q rule fuel
                (rr_init seqs_q)) as [out st] eqn:Hrun.
    apply ordered_free_non_overlapping; [apply block_overlap_sym|].
    destruct (rr_run_ordered_free _ _ _ _ _ _ _ _ eq_refl Hrun) as [Hfree _];
      [|exact Hfree].
    intros i j a b _ Ha. simpl in Ha. by rewrite lookup_nil in Ha. }
  split; [done|].
  eapply non_overlapping_Permutation; [|exact Hout].
  symmetry. apply seq_sort_Permutation.
Qed.

(** C8: two runs of the resolver on identical candidate lists, identical
    value lists (given or defaulted) and rules that return the same thing on
    every candidate block yield identical output sequences and end in the
    same state, for every number of passes; nothing else enters a run. *)
Theorem round_robin_deterministic {B} `{!EqDecision B}
    (overlaps : B → B → bool) (seqs_q : list (list B))
    (seqs_v : option (list (list B))) (rule1 rule2 : option (B → option B))
    (fuel : nat) :
  same_rule seqs_q rule1 rule2 →
  round_robin overlaps seqs_q seqs_v rule1 fuel =
  round_robin overlaps seqs_q seqs_v rule2 fuel.
Proof.
  intros Hsame. destruct seqs_v as [seqs_v|].
  - by apply round_robin_same_rule.
  - by apply (round_robin_same_rule overlaps seqs_q []).
Qed.

Lemma round_robin_deterministic_witness :
  round_robin (block_overlap false) scenario_B_q (Some scenario_B_v)
    (Some Some) 10 =
  round_robin (block_overlap false) scenario_B_q (Some scenario_B_v)
    (Some (λ b, Some (mkBlock (t0 b) (t1 b)))) 10.
Proof.
  apply (round_robin_deterministic (block_overlap false) scenario_B_q
           (Some scenario_B_v) (Some Some)
           (Some (λ b, Some (mkBlock (t0 b) (t1 b)))) 10).
  simpl. intros seq_q b _ _. destruct b. reflexivity.
Defined.

(** * Properties of the registered operations *)

(** Comparing [total_seconds()] with a whole number of seconds is comparing
    microsecond counts. *)
Lemma total_seconds_gt (s : Z) (d : timedelta) :
  (Qc_of_Z s < total_seconds d)%Qc ↔ s * 1000000 < d.
Proof.
  unfold total_seconds.
  assert (Hpos : (0 < Qc_of_Z 1000000)%Qc).
  { rewrite <-Z2Qc_inj_0. by apply Z2Qc_inj_lt. }
  rewrite (Qcmult_lt_mono_pos_r _ _ _ Hpos).
  rewrite (Qcmult_comm (_ / _)), Qcmult_div_r by (by apply not_symmetry, Qclt_not_eq).
  rewrite <-Z2Qc_inj_mul. symmetry. apply Z2Qc_inj_lt.
Qed.

(** When the last relock is a recorded time, a relock is due exactly when
    more than twelve hours lie between it and the current time. *)
Lemma relock_due_Some (state : State) (now : datetime) (last : Val) :
  state !! "curr_time" = Some (VTime now) →
  state !! "last_ufm_relock" = Some last →
  relock_due state =
    match last with
    | VNone => Some true
    | VTime t => Some (bool_decide (12 * hour * 1000000 < now - t))
    | _ => None
    end.
Proof.
  intros Hnow Hlast. unfold relock_due. rewrite Hlast. simpl.
  destruct last as [|b|x|t]; simpl; [done| | |]; rewrite Hnow; simpl; [done..|].
  f_equal. apply bool_decide_ext, total_seconds_gt.
Qed.

(** C7: on a state that holds the current time and a last-relock entry that
    is either [None] or a time, [ufm_relock] relocks (returns fifteen minutes
    and the relock commands and sets the last-relock time to the current
    time) if and only if the entry is [None] or more than twelve hours lie
    between it and the current time; otherwise it returns zero duration and
    the state as it was. *)
Theorem ufm_relock_every_12_hours (state : State) (now : datetime)
    (last : option datetime) :
  state !! "curr_time" = Some (VTime now) →
  state !! "last_ufm_relock" = Some (from_option VTime VNone last) →
  let due := match last with
             | None => True
             | Some t => 12 * hour * 1000000 < now - t
             end in
  (due → ufm_relock state =
           Some (<["last_ufm_relock" := VTime now]> state,
                 (15 * minute, relock_commands))) ∧
  (¬ due → ufm_relock state =
             Some (state, (0, ["# no ufm relock needed at this time"]))).
Proof.
  intros Hnow Hlast due. unfold ufm_relock.
  rewrite (relock_due_Some state now _ Hnow Hlast).
  destruct last as [t|]; simpl in *.
  - split; intros Hdue.
    + rewrite bool_decide_eq_true_2 by done. simpl. by rewrite Hnow.
    + by rewrite bool_decide_eq_false_2.
  - split; [|done]. intros _. by rewrite Hnow.
Qed.

Lemma ufm_relock_every_12_hours_witness :
  let state : State :=
    <["curr_time" := VTime 50000000000]>
      (<["last_ufm_relock" := VTime 0]> ∅) in
  ufm_relock state =
    Some (<["last_ufm_relock" := VTime 50000000000]> state,
          (15 * minute, relock_commands)).
Proof.
  intros state.
  apply (ufm_relock_every_12_hours state 50000000000 (Some 0)).
  - reflexivity.
  - reflexivity.
  - unfold hour, minute. lia.
Defined.

Lemma num_eq_refl (x : number) : is_nan x = false → num_eq x x = true.
Proof. destruct x; simpl; [|done..]. intros _. by apply bool_decide_eq_true_2. Qed.

(** Every value but NaN equals itself. *)
Lemma py_eq_refl (v : Val) : v ≠ VNum NaN → py_eq v v = true.
Proof.
  intros Hnan. unfold py_eq.
  destruct v as [|b|x|t]; simpl; try by rewrite ?bool_decide_eq_true_2.
  apply num_eq_refl. by destruct x.
Qed.

Lemma py_ne_refl (v : Val) : v ≠ VNum NaN → py_ne v v = false.
Proof. intros Hnan. unfold py_ne. by rewrite py_eq_refl. Qed.

(** NaN differs from every value. *)
Lemma py_ne_nan_l (v : Val) : py_ne (VNum NaN) v = true.
Proof. unfold py_ne, py_eq. simpl. by destruct (as_number v). Qed.

Lemma py_ne_nan_r (v : Val) : py_ne v (VNum NaN) = true.
Proof.
  unfold py_ne, py_eq. simpl. destruct (as_number v) as [[]|]; done.
Qed.

(** Once the requested parameters are stored they no longer differ, unless
    one of them is NaN. *)
Lemma scan_params_differ_stored (state : State) (az_speed az_accel : Val) :
  scan_params_differ
    (<["az_accel_now" := az_accel]> (<["az_speed_now" := az_speed]> state))
    az_speed az_accel
  = Some (bool_decide (az_speed = VNum NaN ∨ az_accel = VNum NaN)).
Proof.
  set (state' := <["az_accel_now" := az_accel]> _).
  assert (Hs : state' !! "az_speed_now" = Some az_speed).
  { subst state'. rewrite lookup_insert_ne by discriminate.
    apply lookup_insert_eq. }
  assert (Ha : state' !! "az_accel_now" = Some az_accel).
  { apply lookup_insert_eq. }
  unfold scan_params_differ. rewrite Hs. simpl.
  destruct (decide (az_speed = VNum NaN)) as [->|Hspeed].
  { rewrite py_ne_nan_l. by rewrite bool_decide_eq_true_2 by by left. }
  rewrite py_ne_refl by done. rewrite Ha. simpl.
  destruct (decide (az_accel = VNum NaN)) as [->|Haccel].
  { rewrite py_ne_nan_l. by rewrite bool_decide_eq_true_2 by by right. }
  rewrite py_ne_refl by done. rewrite bool_decide_eq_false_2; [done|].
  by intros [|].
Qed.

(** C10 (amended): on a state that holds the current scan parameters,
    [set_scan_params] emits its command and stores the requested speed and
    acceleration if and only if one of them differs from what the state
    holds, and otherwise returns no command and the state as it was.
    Applied a second time with the same arguments it returns no command and
    leaves the state unchanged exactly when neither argument is NaN: a NaN
    differs from the NaN that was stored, so the command is emitted again. *)
Theorem set_scan_params_idempotent (str : Val → string) (state : State)
    (az_speed az_accel speed_now accel_now : Val) :
  state !! "az_speed_now" = Some speed_now →
  state !! "az_accel_now" = Some accel_now →
  ∃ state' cmds,
    set_scan_params str state az_speed az_accel = Some (state', cmds) ∧
    (if py_ne az_speed speed_now || py_ne az_accel accel_now
     then cmds ≠ [] ∧
          state' = <["az_accel_now" := az_accel]>
                     (<["az_speed_now" := az_speed]> state)
     else cmds = [] ∧ state' = state) ∧
    (set_scan_params str state' az_speed az_accel = Some (state', []) ↔
     az_speed ≠ VNum NaN ∧ az_accel ≠ VNum NaN).
Proof.
  intros Hspeed Haccel.
  assert (Hdiffer : scan_params_differ state az_speed az_accel =
            Some (py_ne az_speed speed_now || py_ne az_accel accel_now)).
  { unfold scan_params_differ. rewrite Hspeed. simpl.
    destruct (py_ne az_speed speed_now); [done|]. by rewrite Haccel. }
  unfold set_scan_params. rewrite Hdiffer. simpl.
  destruct (py_ne az_speed speed_now || py_ne az_accel accel_now) eqn:Hne.
  - eexists _, _. split; [done|]. split; [done|].
    rewrite scan_params_differ_stored. simpl. case_bool_decide as Hnan.
    + split; [done|]. intros [? ?]. by destruct Hnan.
    + split; [|done]. intros _. split; intros ->; apply Hnan; [by left|by right].
  - eexists _, _. split; [done|]. split; [done|]. rewrite Hdiffer. simpl.
    split; [|done]. intros _. apply orb_false_iff in Hne as [Hs Ha].
    split; intros ->; by rewrite py_ne_nan_l in *.
Qed.

Lemma set_scan_params_idempotent_witness :
  let state : State :=
    <["az_speed_now" := VNum (num 1)]> (<["az_accel_now" := VNum (num 2)]> ∅) in
  ∃ state' cmds,
    set_scan_params (λ _, "x") state (VNum (num 2)) (VNum (num 2))
      = Some (state', cmds) ∧
    (cmds ≠ [] ∧
     state' = <["az_accel_now" := VNum (num 2)]>
                (<["az_speed_now" := VNum (num 2)]> state)) ∧
    (set_scan_params (λ _, "x") state' (VNum (num 2)) (VNum (num 2))
       = Some (state', []) ↔
     VNum (num 2) ≠ VNum NaN ∧ VNum (num 2) ≠ VNum NaN).
Proof.
  intros state.
  apply (set_scan_params_idempotent (λ _, "x") state (VNum (num 2))
           (VNum (num 2)) (VNum (num 1)) (VNum (num 2))); reflexivity.
Defined.

(** C10 (as stated) fails: requesting a NaN speed twice emits the command
    twice.  The first call stores the NaN, and the second finds it different
    from the one requested. *)
Lemma set_scan_params_nan_repeats :
  ¬ (∀ (state state' : State) (az_speed az_accel : Val) (cmds : list string),
       set_scan_params (λ _, "x") state az_speed az_accel
         = Some (state', cmds) →
       set_scan_params (λ _, "x") state' az_speed az_accel
         = Some (state', [])).
Proof.
  intros Hclaim.
  set (state := (<["az_speed_now" := VNum (num 1)]>
                   (<["az_accel_now" := VNum (num 2)]> ∅)) : State).
  set (state' := (<["az_accel_now" := VNum (num 2)]>
                    (<["az_speed_now" := VNum NaN]> state)) : State).
  specialize (Hclaim state state' (VNum NaN) (VNum (num 2))
                ["run.acu.set_scan_params(x, x)"] eq_refl).
  assert (Hsecond : set_scan_params (λ _, "x") state' (VNum NaN) (VNum (num 2))
                    = Some (state', ["run.acu.set_scan_params(x, x)"])).
  { unfold set_scan_params. subst state'.
    rewrite scan_params_differ_stored. simpl.
    rewrite (insert_insert_ne _ "az_speed_now" "az_accel_now") by discriminate.
    by rewrite !insert_insert_eq. }
  rewrite Hsecond in Hclaim. discriminate Hclaim.
Qed.

(** * Properties of the operation sequencer *)

Section seq2cmd_facts.
Variable time_costs : gmap string Z.
Variable apply_boresight_rot : bool.
Variable isoformat repr_datetime str_datetime : datetime → string.
Variable str_block : ScanBlock → string.
Variable str_opt : option number → string.
Variable str_round3 str_round5 str_mod360_round3 : number → string.

Local Abbreviation body :=
  (seq2cmd_block time_costs apply_boresight_rot isoformat repr_datetime
     str_datetime str_block str_opt str_round3 str_round5 str_mod360_round3).
Local Abbreviation loop :=
  (seq2cmd_loop time_costs apply_boresight_rot isoformat repr_datetime
     str_datetime str_block str_opt str_round3 str_round5 str_mod360_round3).
Local Abbreviation cmb :=
  (plan_cmb apply_boresight_rot isoformat str_opt str_round3).
Local Abbreviation cal :=
  (plan_cal time_costs apply_boresight_rot isoformat repr_datetime
     str_datetime str_opt str_round3 str_round5 str_mod360_round3).
Local Abbreviation note := (skip_note str_block).
Local Abbreviation boresight := (set_boresight apply_boresight_rot str_opt).
Local Abbreviation planned st block :=
  (add_commands (cmb_scan_lines isoformat str_round3 block)
     (boresight (add_commands (cmb_wait_lines isoformat block) st) block)).

(** Planning a calibration block always raises: the spin-down when the HWP
    is spinning, the detector setup otherwise. *)
Lemma plan_cal_raises (st : seq_state) (block : ScanBlock) (setup : Z) :
  cal st block setup = None.
Proof.
  unfold plan_cal, operation_lines, det_setup_lines.
  by destruct (is_hwp_spinning st).
Qed.

(** Planning an observation block raises unless detectors are set up and
    the HWP is spinning already. *)
Lemma plan_cmb_raises (st : seq_state) (block : ScanBlock) (setup : Z) :
  is_det_setup st = false ∨ is_hwp_spinning st = false →
  cmb st block setup = None.
Proof.
  unfold plan_cmb, operation_lines, det_setup_lines.
  destruct (is_det_setup st); simpl; [|done]. by intros [?| ->].
Qed.

Lemma plan_cmb_steady (st : seq_state) (block : ScanBlock) (setup : Z) :
  is_det_setup st = true → is_hwp_spinning st = true →
  cmb st block setup = Some (planned st block).
Proof.
  intros Hdet Hspin. unfold plan_cmb. rewrite Hdet. simpl. by rewrite Hspin.
Qed.

(** The boresight command changes neither the clock nor the flags, and only
    appends to the commands. *)
Lemma set_boresight_keeps (st : seq_state) (block : ScanBlock) :
  t_cur (boresight st block) = t_cur st ∧
  is_det_setup (boresight st block) = is_det_setup st ∧
  is_hwp_spinning (boresight st block) = is_hwp_spinning st ∧
  (length (commands st) ≤ length (commands (boresight st block)))%nat.
Proof.
  unfold set_boresight. destruct (_ && _ && _); simpl; [|done].
  split_and!; [done..|]. rewrite length_app. lia.
Qed.

Lemma planned_keeps (st : seq_state) (block : ScanBlock) :
  t_cur (planned st block) = t_cur st ∧
  is_det_setup (planned st block) = is_det_setup st ∧
  is_hwp_spinning (planned st block) = is_hwp_spinning st ∧
  (length (commands st) + 14 ≤ length (commands (planned st block)))%nat.
Proof.
  destruct (set_boresight_keeps
              (add_commands (cmb_wait_lines isoformat block) st) block)
    as (Ht & Hd & Hs & Hlen).
  simpl in *. rewrite length_app in *. simpl in *.
  split_and!; [done..|lia].
Qed.

(** The three ways in which one iteration completes: the block is skipped;
    it is an observation block planned with detectors set up and the HWP
    spinning; or it is neither an observation nor a calibration block. *)
Lemma seq2cmd_block_inv (st st' : seq_state) (block : ScanBlock) :
  body st block = Some st' →
  ∃ setup, setup_time time_costs st block = Some setup ∧
    ((insufficient_time st block setup = true ∧
      st' = add_commands (note block) st) ∨
     (insufficient_time st block setup = false ∧ subtype block = "cmb" ∧
      is_det_setup st = true ∧ is_hwp_spinning st = true ∧
      ∃ cost, time_costs !! "bias_step" = Some cost ∧
              st' = set_t_cur (t1 block + timedelta_of_seconds cost)
                      (planned st block)) ∨
     (subtype block ≠ "cmb" ∧ subtype block ≠ "cal" ∧
      ∃ cost, time_costs !! "bias_step" = Some cost ∧
              st' = set_t_cur (t1 block + timedelta_of_seconds cost) st)).
Proof.
  unfold seq2cmd_block.
  destruct (setup_time time_costs st block) as [setup|]; [simpl|done].
  intros Hbody. exists setup. split; [done|].
  destruct (insufficient_time st block setup) eqn:Hlate.
  { left. by injection Hbody as <-. }
  right. destruct (decide (subtype block = "cmb")) as [Hcmb|Hcmb];
    [rewrite (bool_decide_eq_true_2 _ Hcmb) in Hbody
    |rewrite (bool_decide_eq_false_2 _ Hcmb) in Hbody].
  - left. destruct (is_det_setup st) eqn:Hdet, (is_hwp_spinning st) eqn:Hspin.
    2: { rewrite plan_cmb_raises in Hbody; [done|by right]. }
    2: { rewrite plan_cmb_raises in Hbody; [done|by left]. }
    2: { rewrite plan_cmb_raises in Hbody; [done|by left]. }
    rewrite plan_cmb_steady in Hbody by done. simpl in Hbody.
    rewrite bool_decide_eq_false_2 in Hbody
      by (rewrite Hcmb; discriminate).
    simpl in Hbody.
    destruct (time_costs !! "bias_step") as [cost|]; [simpl in Hbody|done].
    injection Hbody as <-. split_and!; [done..|]. by exists cost.
  - right. simpl in Hbody. case_bool_decide as Hcal.
    { by rewrite plan_cal_raises in Hbody. }
    simpl in Hbody.
    destruct (time_costs !! "bias_step") as [cost|]; [simpl in Hbody|done].
    injection Hbody as <-. split_and!; [done..|]. by exists cost.
Qed.


(** X16: the loop never plans a block unless it is entered with detectors
    set up and the HWP spinning, which [seq2cmd] never does.  From any other
    state, if the loop completes then the sequence holds no ['cal'] block,
    every ['cmb'] block was skipped, and the commands are those it started
    with followed by exactly the skip notes of the ['cmb'] blocks; the two
    flags and the boresight angle are as they were. *)
Theorem seq2cmd_loop_plans_nothing (seq : list ScanBlock)
    (st st' : seq_state) :
  is_det_setup st = false ∨ is_hwp_spinning st = false →
  loop st seq = Some st' →
  commands st' =
    commands st ++ concat (note <$> filter (λ b, subtype b = "cmb") seq) ∧
  Forall (λ b, subtype b ≠ "cal") seq ∧
  is_det_setup st' = is_det_setup st ∧
  is_hwp_spinning st' = is_hwp_spinning st ∧
  cur_boresight_angle st' = cur_boresight_angle st.
Proof.
  revert st. induction seq as [|block seq IH]; intros st Hflags; simpl.
  { intros [= <-]. by rewrite app_nil_r. }
  destruct (body st block) as [st1|] eqn:Hbody; [simpl|done].
  apply seq2cmd_block_inv in Hbody
    as (setup & _ & [(Hlate & ->)|[(_ & _ & Hd & Hs & _)|(Hc & Hl & cost & _ & ->)]]).
  - intros Hloop. apply IH in Hloop as (Hcmds & Hcal & Hd & Hs & Hb); [|done].
    unfold insufficient_time in Hlate.
    apply andb_true_iff in Hlate as [Hcmb%bool_decide_eq_true _].
    rewrite filter_cons_True by done. simpl in *.
    rewrite Hcmds, <-app_assoc. split_and!; [done| |done..].
    constructor; [by rewrite Hcmb|done].
  - destruct Hflags; congruence.
  - intros Hloop. apply IH in Hloop as (Hcmds & Hcal & Hd & Hs & Hb); [|done].
    rewrite filter_cons_False by done. simpl in *.
    split_and!; [done| |done..]. by constructor.
Qed.

Lemma add_cost_nonneg (key : string) (t t' : Z) :
  costs_nonneg time_costs → 0 ≤ t → add_cost time_costs key t = Some t' →
  0 ≤ t'.
Proof.
  intros Hcosts Ht. unfold add_cost.
  destruct (time_costs !! key) as [cost|] eqn:Hcost; [simpl|done].
  intros [= <-]. apply (map_Forall_lookup_1 _ _ _ _ Hcosts) in Hcost.
  simpl in Hcost. lia.
Qed.

(** With non-negative costs the setup time is non-negative. *)
Lemma setup_time_nonneg (st : seq_state) (block : ScanBlock) (setup : Z) :
  costs_nonneg time_costs → setup_time time_costs st block = Some setup →
  0 ≤ setup.
Proof.
  intros Hcosts. unfold setup_time.
  set (first := if _ || _ then _ else _).
  assert (H1 : ∀ t, first = Some t → 0 ≤ t).
  { intros t. subst first. destruct (_ || _).
    - by apply add_cost_nonneg.
    - by intros [= <-]. }
  destruct first as [t1|]; [simpl|done]. specialize (H1 t1 eq_refl).
  set (second := if negb _ then _ else _).
  assert (H2 : ∀ t, second = Some t → 0 ≤ t).
  { intros t. subst second. destruct (negb _).
    - by apply add_cost_nonneg.
    - by intros [= <-]. }
  destruct second as [t2|]; [simpl|done]. specialize (H2 t2 eq_refl).
  destruct (_ && _); [|by intros [= <-]].
  destruct (add_cost time_costs "hwp_spin_down" t2) as [t3|] eqn:H3;
    [simpl|done].
  apply add_cost_nonneg in H3; [|done..]. by apply add_cost_nonneg.
Qed.

Lemma timedelta_of_seconds_nonneg (s : Z) :
  0 ≤ s → 0 ≤ timedelta_of_seconds s.
Proof. unfold timedelta_of_seconds. lia. Qed.

(** What an iteration on an observation block does to the clock: the block
    is skipped and the clock stays, or it is planned, which takes detectors
    set up and the HWP spinning, and the clock moves from before the block's
    end to that end plus the bias-step cost. *)
Lemma seq2cmd_block_cmb_clock (st st' : seq_state) (block : ScanBlock) :
  costs_nonneg time_costs → subtype block = "cmb" →
  body st block = Some st' →
  (st' = add_commands (note block) st ∨
   is_det_setup st = true ∧ is_hwp_spinning st = true ∧
   t_cur st ≤ t1 block ∧
   ∃ cost, time_costs !! "bias_step" = Some cost ∧
           t_cur st' = t1 block + timedelta_of_seconds cost) ∧
  t_cur st ≤ t_cur st'.
Proof.
  intros Hcosts Hcmb Hbody.
  apply seq2cmd_block_inv in Hbody
    as (setup & Hsetup & [(Hlate & ->)|[(Hlate & _ & Hd & Hs & cost & Hcost & ->)|(? & _)]]);
    [| |done].
  - split; [by left|done].
  - assert (Hzero : setup = 0).
    { unfold setup_time in Hsetup. rewrite Hd, Hs, Hcmb in Hsetup.
      simpl in Hsetup. by injection Hsetup. }
    subst setup. unfold insufficient_time in Hlate.
    rewrite (bool_decide_eq_true_2 _ Hcmb) in Hlate. simpl in Hlate.
    apply bool_decide_eq_false in Hlate.
    unfold timedelta_of_seconds in Hlate at 1.
    apply (map_Forall_lookup_1 _ _ _ _ Hcosts) in Hcost as Hpos.
    simpl in Hpos. apply timedelta_of_seconds_nonneg in Hpos.
    destruct (planned_keeps st block) as (Ht & _).
    simpl in *. split; [|lia]. right. split_and!; [done..|lia|].
    by exists cost.
Qed.

(** X17: over observation blocks the running clock never goes back.  With
    non-negative time costs, an iteration on a ['cmb'] block either skips it
    and leaves the clock alone, or plans it, from a clock that is not past
    the block's end [t1], and moves the clock to [t1] plus the bias-step
    cost; so walking any sequence of ['cmb'] blocks leaves the clock at or
    after where it started. *)
Theorem seq2cmd_cmb_clock_monotone (seq : list ScanBlock)
    (st st' : seq_state) :
  costs_nonneg time_costs →
  Forall (λ block, subtype block = "cmb") seq →
  loop st seq = Some st' →
  t_cur st ≤ t_cur st' ∧
  ∀ block st1 st2, block ∈ seq → body st1 block = Some st2 →
    st2 = add_commands (note block) st1 ∨
    is_det_setup st1 = true ∧ is_hwp_spinning st1 = true ∧
    t_cur st1 ≤ t1 block ∧
    ∃ cost, time_costs !! "bias_step" = Some cost ∧
            t_cur st2 = t1 block + timedelta_of_seconds cost.
Proof.
  intros Hcosts Hseq Hloop. split.
  - revert st Hloop.
    induction Hseq as [|block seq Hcmb _ IH]; intros st; simpl.
    { by intros [= <-]. }
    destruct (body st block) as [st1|] eqn:Hbody; [simpl|done].
    intros Hloop. apply IH in Hloop.
    apply seq2cmd_block_cmb_clock in Hbody as [_ Hbody]; [lia|done..].
  - intros block st1 st2 Hin Hbody.
    rewrite Forall_forall in Hseq.
    by apply seq2cmd_block_cmb_clock in Hbody as [Hbody _]; [|done|apply Hseq].
Qed.

End seq2cmd_facts.

Lemma example_costs_nonneg : costs_nonneg example_costs.
Proof.
  intros key cost Hcost. unfold example_costs in Hcost.
  apply elem_of_list_to_map_2 in Hcost.
  repeat (apply elem_of_cons in Hcost as [[= -> ->]|Hcost]; [lia|]).
  by apply elem_of_nil in Hcost.
Qed.



Lemma seq2cmd_loop_plans_nothing_witness :
  ∃ st', example_seq2cmd_loop example_state
           [example_block "cmb"; example_block ""] = Some st' ∧
         commands st' = skip_note (λ _, "") (example_block "cmb") ∧
         is_det_setup st' = false ∧ is_hwp_spinning st' = false.
Proof.
  eexists. split; [reflexivity|].
  destruct (seq2cmd_loop_plans_nothing example_costs false
              (λ _, "") (λ _, "") (λ _, "") (λ _, "") (λ _, "") (λ _, "")
              (λ _, "") (λ _, "") [example_block "cmb"; example_block ""]
              example_state _ (or_introl eq_refl) eq_refl)
    as (Hcmds & _ & Hdet & Hspin & _).
  split_and!; [exact Hcmds|exact Hdet|exact Hspin].
Defined.

Lemma seq2cmd_cmb_clock_monotone_witness :
  ∃ st', example_seq2cmd_loop example_steady_state [example_block "cmb"]
           = Some st' ∧
         t_cur st' = timedelta_of_seconds 4260 ∧
         t_cur example_steady_state ≤ t_cur st'.
Proof.
  eexists. split; [reflexivity|]. split; [reflexivity|].
  apply (seq2cmd_cmb_clock_monotone example_costs false
           (λ _, "") (λ _, "") (λ _, "") (λ _, "") (λ _, "") (λ _, "")
           (λ _, "") (λ _, "") [example_block "cmb"] example_steady_state).
  - apply example_costs_nonneg.
  - repeat constructor.
  - reflexivity.
Defined.



(** * Properties of the spec query *)

(** Induction over a tree and, under a dict, over each of its entries. *)
Lemma Tree_nested_ind {A} (P : Tree A → Prop) :
  (∀ x, P (TLeaf x)) → P TNone →
  (∀ children, Forall (λ kt, P kt.2) children → P (TDict children)) →
  ∀ tree, P tree.
Proof.
  intros Hleaf Hnone Hdict. fix IH 1. intros [x| |children].
  - apply Hleaf.
  - apply Hnone.
  - apply Hdict. induction children as [|[key sub] rest IHrest].
    + constructor.
    + constructor; [apply IH|apply IHrest].
Qed.

(** Mapping the unmatched leaves to [None] and then collecting the leaves
    keeps exactly the leaves whose path satisfies the test. *)
Lemma tree_leaves_map_with_path {A} (test : list string → bool)
    (tree : Tree A) (path : list string) :
  tree_leaves
    (tree_map_with_path (λ p x, if test p then Some x else None) path tree)
  = (filter (λ pl, test pl.1 = true) (leaves_with_path path tree)).*2.
Proof.
  revert path. induction tree as [x| |children IH] using Tree_nested_ind;
    intros path; simpl.
  - rewrite filter_cons. simpl. by destruct (test path).
  - done.
  - induction IH as [|[key sub] rest Hsub _ IHrest]; simpl; [done|].
    rewrite filter_app, fmap_app. f_equal; [apply Hsub|apply IHrest].
Qed.

Lemma all_matches_matching_leaves (specs : SpecsTree) (query : list string) :
  all_matches specs query = matching_leaves specs query.
Proof.
  unfold all_matches, matching_leaves.
  apply (tree_leaves_map_with_path (λ p, match_p query (path2key p))).
Qed.

(** On numbers other than NaN, [<=] is a total order and [<] its strict
    part. *)
Lemma num_le_refl (x : number) : is_nan x = false → num_le x x = true.
Proof.
  destruct x; simpl; [|done..]. intros _. by apply bool_decide_eq_true_2.
Qed.

Lemma num_le_trans (x y z : number) :
  num_le x y = true → num_le y z = true → num_le x z = true.
Proof.
  destruct x, y, z; simpl; try done.
  rewrite !bool_decide_eq_true. apply Qcle_trans.
Qed.

Lemma num_le_antisym (x y : number) :
  num_le x y = true → num_le y x = true → x = y.
Proof.
  destruct x, y; simpl; try done.
  rewrite !bool_decide_eq_true. intros Hxy Hyx. f_equal.
  by apply Qcle_antisym.
Qed.

Lemma num_lt_le (x y : number) : num_lt x y = true → num_le x y = true.
Proof.
  destruct x, y; simpl; try done.
  rewrite !bool_decide_eq_true. apply Qclt_le_weak.
Qed.

Lemma num_nlt_le (x y : number) :
  is_nan x = false → is_nan y = false →
  num_lt y x = false → num_le x y = true.
Proof.
  destruct x, y; simpl; try done.
  rewrite bool_decide_eq_false, bool_decide_eq_true. intros _ _.
  apply Qcle_ngt.
Qed.

Lemma num_le_not_nan (x y : number) :
  num_le x y = true → is_nan x = false ∧ is_nan y = false.
Proof. by destruct x, y. Qed.

Lemma py_min_not_nan (a b : number) :
  is_nan a = false → is_nan b = false → is_nan (py_min a b) = false.
Proof. unfold py_min. by destruct (num_lt b a). Qed.

Lemma py_max_not_nan (a b : number) :
  is_nan a = false → is_nan b = false → is_nan (py_max a b) = false.
Proof. unfold py_max. by destruct (num_lt a b). Qed.

Lemma py_min_le_l (a b : number) :
  is_nan a = false → is_nan b = false → num_le (py_min a b) a = true.
Proof.
  intros Ha Hb. unfold py_min. destruct (num_lt b a) eqn:Hlt.
  - by apply num_lt_le.
  - by apply num_le_refl.
Qed.

Lemma py_min_le_r (a b : number) :
  is_nan a = false → is_nan b = false → num_le (py_min a b) b = true.
Proof.
  intros Ha Hb. unfold py_min. destruct (num_lt b a) eqn:Hlt.
  - by apply num_le_refl.
  - by apply num_nlt_le.
Qed.

Lemma py_max_ge_l (a b : number) :
  is_nan a = false → is_nan b = false → num_le a (py_max a b) = true.
Proof.
  intros Ha Hb. unfold py_max. destruct (num_lt a b) eqn:Hlt.
  - by apply num_lt_le.
  - by apply num_le_refl.
Qed.

Lemma py_max_ge_r (a b : number) :
  is_nan a = false → is_nan b = false → num_le b (py_max a b) = true.
Proof.
  intros Ha Hb. unfold py_max. destruct (num_lt a b) eqn:Hlt.
  - by apply num_le_refl.
  - by apply num_nlt_le.
Qed.

Lemma foldl_py_min_is_min (l : list number) (a : number) :
  Forall (λ x, is_nan x = false) (a :: l) →
  is_min (foldl py_min a l) (a :: l).
Proof.
  revert a. induction l as [|x l IH]; intros a Hnan; simpl.
  { apply Forall_cons in Hnan as [Ha _]. split; [by left|].
    intros y ->%list_elem_of_singleton. by apply num_le_refl. }
  apply Forall_cons in Hnan as [Ha [Hx Hl]%Forall_cons].
  destruct (IH (py_min a x)) as [Hin Hle].
  { constructor; [by apply py_min_not_nan|done]. }
  split.
  - apply elem_of_cons in Hin as [->|Hin]; [|by do 2 right].
    unfold py_min. destruct (num_lt x a); [right; left|left].
  - intros y Hy.
    assert (Hm : num_le (foldl py_min (py_min a x) l) (py_min a x) = true)
      by (apply Hle; left).
    apply elem_of_cons in Hy as [->|Hy].
    { eapply num_le_trans; [exact Hm|by apply py_min_le_l]. }
    apply elem_of_cons in Hy as [->|Hy].
    { eapply num_le_trans; [exact Hm|by apply py_min_le_r]. }
    apply Hle. by right.
Qed.

Lemma foldl_py_max_is_max (l : list number) (a : number) :
  Forall (λ x, is_nan x = false) (a :: l) →
  is_max (foldl py_max a l) (a :: l).
Proof.
  revert a. induction l as [|x l IH]; intros a Hnan; simpl.
  { apply Forall_cons in Hnan as [Ha _]. split; [by left|].
    intros y ->%list_elem_of_singleton. by apply num_le_refl. }
  apply Forall_cons in Hnan as [Ha [Hx Hl]%Forall_cons].
  destruct (IH (py_max a x)) as [Hin Hle].
  { constructor; [by apply py_max_not_nan|done]. }
  split.
  - apply elem_of_cons in Hin as [->|Hin]; [|by do 2 right].
    unfold py_max. destruct (num_lt a x); [right; left|left].
  - intros y Hy.
    assert (Hm : num_le (py_max a x) (foldl py_max (py_max a x) l) = true)
      by (apply Hle; left).
    apply elem_of_cons in Hy as [->|Hy].
    { eapply num_le_trans; [|exact Hm]. by apply py_max_ge_l. }
    apply elem_of_cons in Hy as [->|Hy].
    { eapply num_le_trans; [|exact Hm]. by apply py_max_ge_r. }
    apply Hle. by right.
Qed.

(** The reduction works on the four bounds separately. *)
Lemma foldl_reduce_fn_bounds (rest : list Spec) (first : Spec) :
  (bounds_x (foldl reduce_fn first rest)).1
    = foldl py_min (bounds_x first).1 ((λ s, (bounds_x s).1) <$> rest) ∧
  (bounds_x (foldl reduce_fn first rest)).2
    = foldl py_max (bounds_x first).2 ((λ s, (bounds_x s).2) <$> rest) ∧
  (bounds_y (foldl reduce_fn first rest)).1
    = foldl py_min (bounds_y first).1 ((λ s, (bounds_y s).1) <$> rest) ∧
  (bounds_y (foldl reduce_fn first rest)).2
    = foldl py_max (bounds_y first).2 ((λ s, (bounds_y s).2) <$> rest).
Proof.
  revert first. induction rest as [|r rest IH]; intros first; simpl; [done|].
  apply (IH (reduce_fn first r)).
Qed.

Lemma spec_no_nan_bounds (spec : Spec) :
  spec_no_nan spec = true ↔
  is_nan (bounds_x spec).1 = false ∧ is_nan (bounds_x spec).2 = false ∧
  is_nan (bounds_y spec).1 = false ∧ is_nan (bounds_y spec).2 = false.
Proof.
  unfold spec_no_nan. rewrite !andb_true_iff, !negb_true_iff. tauto.
Qed.

Lemma Forall_spec_no_nan (specs : list Spec) :
  Forall (λ s, spec_no_nan s = true) specs →
  Forall (λ x, is_nan x = false) ((λ s, (bounds_x s).1) <$> specs) ∧
  Forall (λ x, is_nan x = false) ((λ s, (bounds_x s).2) <$> specs) ∧
  Forall (λ x, is_nan x = false) ((λ s, (bounds_y s).1) <$> specs) ∧
  Forall (λ x, is_nan x = false) ((λ s, (bounds_y s).2) <$> specs).
Proof.
  intros Hnan. rewrite !Forall_fmap.
  split_and!; (eapply Forall_impl; [exact Hnan|]); simpl;
    intros s Hs%spec_no_nan_bounds; tauto.
Qed.

(** Without NaN among the bounds, the reduction of a list of leaves spans
    the list. *)
Lemma foldl_reduce_fn_spans (first : Spec) (rest : list Spec) :
  Forall (λ s, spec_no_nan s = true) (first :: rest) →
  spans (foldl reduce_fn first rest) (first :: rest).
Proof.
  intros (Hx1 & Hx2 & Hy1 & Hy2)%Forall_spec_no_nan. unfold spans.
  destruct (foldl_reduce_fn_bounds rest first) as (-> & -> & -> & ->).
  rewrite !fmap_cons in *.
  split_and!;
    first [by apply foldl_py_min_is_min | by apply foldl_py_max_is_max].
Qed.

Lemma is_min_unique (m m' : number) (l l' : list number) :
  l ≡ₚ l' → is_min m l → is_min m' l' → m = m'.
Proof.
  intros Hperm [Hin Hle] [Hin' Hle'].
  apply num_le_antisym.
  - apply Hle. by rewrite Hperm.
  - apply Hle'. by rewrite <-Hperm.
Qed.

Lemma is_max_unique (m m' : number) (l l' : list number) :
  l ≡ₚ l' → is_max m l → is_max m' l' → m = m'.
Proof.
  intros Hperm [Hin Hle] [Hin' Hle'].
  apply num_le_antisym.
  - apply Hle'. by rewrite <-Hperm.
  - apply Hle. by rewrite Hperm.
Qed.

(** Two leaves that span the same matches, in whatever order, are equal. *)
Lemma spans_unique (spec spec' : Spec) (specs specs' : list Spec) :
  specs ≡ₚ specs' → spans spec specs → spans spec' specs' → spec = spec'.
Proof.
  intros Hperm (Hx1 & Hx2 & Hy1 & Hy2) (Hx1' & Hx2' & Hy1' & Hy2').
  destruct spec as [[x1 x2] [y1 y2]], spec' as [[x1' x2'] [y1' y2']].
  simpl in *. f_equal; f_equal.
  - eapply is_min_unique; [|done..]. by apply fmap_Permutation.
  - eapply is_max_unique; [|done..]. by apply fmap_Permutation.
  - eapply is_min_unique; [|done..]. by apply fmap_Permutation.
  - eapply is_max_unique; [|done..]. by apply fmap_Permutation.
Qed.

Lemma merge_matches_Permutation (specs specs' : list Spec) :
  Forall (λ s, spec_no_nan s = true) specs →
  specs ≡ₚ specs' → merge_matches specs = merge_matches specs'.
Proof.
  intros Hnan Hperm.
  assert (Hnan' : Forall (λ s, spec_no_nan s = true) specs')
    by by rewrite <-Hperm.
  destruct specs as [|first rest], specs' as [|first' rest'].
  - done.
  - by apply Permutation_nil_cons in Hperm.
  - symmetry in Hperm. by apply Permutation_nil_cons in Hperm.
  - simpl. f_equal.
    eapply spans_unique; [exact Hperm|by apply foldl_reduce_fn_spans..].
Qed.

(** C9 (amended): with [merge=True], [get_spec] returns the empty dict when
    no leaf's dot-joined path contains a query string.  Otherwise it returns
    one leaf, and when no bound of a matching leaf is NaN, its [bounds_x]
    and [bounds_y] are, componentwise, the least of the matching leaves'
    lower bounds and the greatest of their upper bounds, and reducing the
    matches in any other order gives the same result. *)
Theorem get_spec_merge (specs : SpecsTree) (query : list string) :
  match matching_leaves specs query with
  | [] => get_spec specs query true = EmptyDict
  | _ :: _ => ∃ spec, get_spec specs query true = Reduced spec
  end ∧
  (Forall (λ s, spec_no_nan s = true) (matching_leaves specs query) →
   (∀ spec, get_spec specs query true = Reduced spec →
            spans spec (matching_leaves specs query)) ∧
   ∀ reordered, reordered ≡ₚ matching_leaves specs query →
                merge_matches reordered = get_spec specs query true).
Proof.
  unfold get_spec. simpl. rewrite all_matches_matching_leaves. split.
  - destruct (matching_leaves specs query) as [|first rest]; [done|].
    by exists (foldl reduce_fn first rest).
  - intros Hnan. split.
    + destruct (matching_leaves specs query) as [|first rest]; [done|].
      intros spec [= <-]. by apply foldl_reduce_fn_spans.
    + intros reordered Hperm. symmetry.
      by apply merge_matches_Permutation.
Qed.

Lemma get_spec_merge_witness :
  merge_matches [mkSpec (num (-2), num 0) (num 0, num 1);
                 mkSpec (num (-1), num 1) (num (-2), num 2)]
  = get_spec example_specs ["ws0"] true.
Proof.
  apply (get_spec_merge example_specs ["ws0"]).
  - repeat constructor.
  - vm_compute. apply Permutation_swap.
Defined.

(** C9 (as stated) fails on a NaN bound.  Two trees hold the same two leaves
    under the keys [a] and [b], in either order, and both leaves match the
    query.  Reduced from the leaf whose lower bound is NaN the result keeps
    the NaN, which is no minimum; reduced from the other leaf it is [0]. *)
Lemma get_spec_merge_nan_order :
  get_spec (TDict [("a", TLeaf nan_leaf); ("b", TLeaf zero_leaf)])
    ["a"; "b"] true = Reduced nan_leaf ∧
  get_spec (TDict [("a", TLeaf zero_leaf); ("b", TLeaf nan_leaf)])
    ["a"; "b"] true = Reduced zero_leaf ∧
  [zero_leaf; nan_leaf] ≡ₚ [nan_leaf; zero_leaf] ∧
  merge_matches [zero_leaf; nan_leaf] ≠ merge_matches [nan_leaf; zero_leaf] ∧
  ¬ spans nan_leaf [nan_leaf; zero_leaf].
Proof.
  split_and!; [reflexivity|reflexivity|apply Permutation_swap|discriminate|].
  intros ([_ Hle] & _). specialize (Hle (num 0)). simpl in Hle.
  discriminate Hle. right. left.
Qed.

(** The query ["ws0"] matches the paths ["tube1.ws0"] and ["tube2.ws0"]; the
    query ["tube3"] matches nothing. *)
Example get_spec_example :
  get_spec example_specs ["ws0"] true
    = Reduced (mkSpec (num (-2), num 1) (num (-2), num 2)) ∧
  get_spec example_specs ["tube3"] true = EmptyDict ∧
  get_spec example_specs ["tube2"; "ws1"] false
    = Matches [mkSpec (num 0, num 2) (num (-1), num 1);
               mkSpec (num (-2), num 0) (num 0, num 1)].
Proof. split_and!; reflexivity. Qed.

(** * Further properties of the round-robin resolver *)

Section round_robin_more.
Context {B : Type} `{!EqDecision B}.
Variable overlaps : B → B → bool.
Variable seqs_q seqs_v : list (list B).
Variable sun_avoidance : option (B → option B).

Local Abbreviation step := (rr_step overlaps seqs_q seqs_v sun_avoidance).
Local Abbreviation run := (rr_run overlaps seqs_q seqs_v sun_avoidance).
Local Abbreviation n := (n_seq seqs_q).

(** With nothing to schedule the very first pass returns. *)
Lemma rr_step_init_Return :
  Forall (λ seq_q, seq_q = []) seqs_q → step (rr_init seqs_q) = Return.
Proof.
  intros Hempty. unfold rr_step, rr_body.
  destruct (all_exhausted_Some seqs_q (rr_init seqs_q)) as (flag & -> & Hflag).
  { apply length_replicate. }
  assert (flag = true) as ->; [|done].
  apply Hflag. intros i seq_q Hq. exists 0%nat. split.
  - simpl. apply lookup_replicate_2. by eapply lookup_lt_Some.
  - rewrite Forall_lookup in Hempty. by rewrite (Hempty i seq_q Hq).
Qed.

Lemma not_all_empty_some_candidate :
  ¬ Forall (λ seq_q, seq_q = []) seqs_q → some_candidate seqs_q.
Proof.
  intros Hne. apply not_Forall_Exists in Hne; [|intros l; apply _].
  apply Exists_exists in Hne as ([|b seq_q] & Hin & Hnonempty).
  { by destruct Hnonempty. }
  apply list_elem_of_lookup in Hin as [i Hi]. by exists i, b, seq_q.
Qed.
End round_robin_more.

(** X1: the resolver signals exhaustion exactly on inputs that hold no block
    at all (equally many query and value lists, every query list empty), and
    then on its first pass, having yielded nothing. *)
Theorem round_robin_exhausted_iff_empty {B} `{!EqDecision B}
    (overlaps : B → B → bool) (seqs_q : list (list B))
    (seqs_v : option (list (list B))) (rule : option (B → option B))
    (fuel : nat) :
  (round_robin overlaps seqs_q seqs_v rule (S fuel)).2 = Exhausted ↔
  length seqs_q = length (default seqs_q seqs_v) ∧
  Forall (λ seq_q, seq_q = []) seqs_q.
Proof.
  unfold round_robin. case_bool_decide as Hlen; [|by split; [|intros []]].
  split.
  - intros Hex. split; [done|].
    destruct (decide (Forall (λ seq_q, seq_q = []) seqs_q)) as [|Hne]; [done|].
    exfalso. revert Hex. apply rr_run_never_Exhausted; [done|].
    by apply not_all_empty_some_candidate.
  - intros [_ Hempty]. simpl.
    by rewrite (rr_step_init_Return overlaps seqs_q _ rule Hempty).
Qed.

Section round_robin_safety.
Context {B : Type} `{!EqDecision B}.
Variable overlaps : B → B → bool.
Variable seqs_q seqs_v : list (list B).
Variable sun_avoidance : option (B → option B).

Local Abbreviation step := (rr_step overlaps seqs_q seqs_v sun_avoidance).
Local Abbreviation run := (rr_run overlaps seqs_q seqs_v sun_avoidance).
Local Abbreviation n := (n_seq seqs_q).

Lemma rr_init_wf : rr_wf seqs_q (rr_init seqs_q).
Proof.
  unfold rr_wf. simpl. rewrite !length_replicate. split_and!; [done..|].
  unfold n_seq. destruct seqs_q; simpl; [by left|right; lia].
Qed.

Lemma next_seq_lt (i : nat) : (0 < n)%nat → (next_seq seqs_q i < n)%nat.
Proof. intros Hn. unfold next_seq. apply Nat.mod_upper_bound. lia. Qed.

(** From a well-shaped state, with value lists that cover the query lists,
    a pass never raises, and it hands on a well-shaped state. *)
Lemma rr_step_safe (s : rr_state B) :
  values_cover seqs_q seqs_v → rr_wf seqs_q s →
  match step s with
  | Return => True
  | Raise => False
  | Continue s' | Yield _ s' => rr_wf seqs_q s'
  end.
Proof.
  intros Hcover (Hidx & Hbi & Hseq). unfold rr_step, rr_body.
  destruct (all_exhausted_Some seqs_q s Hidx) as (flag & -> & Hflag). simpl.
  destruct flag; [done|].
  assert (Hn : (0 < n)%nat).
  { destruct (decide (n = 0%nat)) as [Hz|]; [|lia].
    assert (true = false); [|done]. symmetry. apply Hflag.
    intros i seq_q Hq%lookup_lt_Some. unfold n_seq in Hz. lia. }
  destruct Hseq as [|Hseq]; [lia|].
  destruct (lookup_lt_is_Some_2 (block_i s) (seq_i s)) as [c Hc]; [lia|].
  destruct (lookup_lt_is_Some_2 seqs_q (seq_i s) Hseq) as [seq_q Hq].
  rewrite Hc, Hq. simpl. case_bool_decide as Hle.
  { unfold rr_wf. simpl. split_and!; [done..|]. right. by apply next_seq_lt. }
  destruct (Forall2_lookup_l _ _ _ _ _ Hcover Hq) as (seq_v & Hv & Hlen).
  rewrite Hv. simpl.
  destruct (lookup_lt_is_Some_2 seq_q c) as [block_q Hbq]; [lia|].
  destruct (lookup_lt_is_Some_2 seq_v c) as [block_v Hbv]; [lia|].
  rewrite Hbq, Hbv. simpl. unfold incr.
  destruct (can_schedule _ _ _ _).
  - destruct (lookup_lt_is_Some_2 (block_i s) (next_seq seqs_q (seq_i s)))
      as [c' Hc']; [rewrite Hbi; by apply next_seq_lt|].
    rewrite Hc'. unfold rr_wf. simpl. split_and!; [done| |].
    + by rewrite length_insert.
    + right. by apply next_seq_lt.
  - rewrite Hc. unfold rr_wf. simpl. split_and!; [done| |by right].
    by rewrite length_insert.
Qed.

Lemma rr_run_never_Raised (fuel : nat) (s : rr_state B) :
  values_cover seqs_q seqs_v → rr_wf seqs_q s → (run fuel s).2 ≠ Raised.
Proof.
  intros Hcover. revert s. induction fuel as [|fuel IH]; intros s Hwf; [done|].
  simpl. pose proof (rr_step_safe s Hcover Hwf) as Hsafe.
  destruct (step s) as [| |s1|v s1]; [done..|by apply IH|].
  specialize (IH s1 Hsafe). by destruct (run fuel s1).
Qed.
End round_robin_safety.

(** X2: when every value list is at least as long as its query list (as it
    is when the values are defaulted to the queries), the resolver never
    raises: no [IndexError] and no failed assertion, however long it is
    driven. *)
Theorem round_robin_never_raises {B} `{!EqDecision B}
    (overlaps : B → B → bool) (seqs_q : list (list B))
    (seqs_v : option (list (list B))) (rule : option (B → option B))
    (fuel : nat) :
  values_cover seqs_q (default seqs_q seqs_v) →
  (round_robin overlaps seqs_q seqs_v rule fuel).2 ≠ Raised.
Proof.
  intros Hcover. unfold round_robin.
  rewrite bool_decide_eq_true_2 by (by eapply Forall2_length).
  apply rr_run_never_Raised; [done|apply rr_init_wf].
Qed.

Lemma round_robin_never_raises_witness :
  (round_robin (block_overlap false) scenario_B_q (Some scenario_B_v)
     (Some Some) 10).2 ≠ Raised.
Proof.
  apply (round_robin_never_raises (block_overlap false) scenario_B_q
           (Some scenario_B_v) (Some Some) 10).
  repeat constructor.
Defined.

Section round_robin_provenance.
Context {B : Type} `{!EqDecision B}.
Variable overlaps : B → B → bool.
Variable seqs_q seqs_v : list (list B).
Variable sun_avoidance : option (B → option B).

Local Abbreviation step := (rr_step overlaps seqs_q seqs_v sun_avoidance).
Local Abbreviation run := (rr_run overlaps seqs_q seqs_v sun_avoidance).

(** A query block the resolver may accept: it stands in a candidate list
    and the rule, if there is one, returns it unchanged. *)
Local Abbreviation acceptable :=
  (λ b, candidate seqs_q b ∧
        ∀ rule, sun_avoidance = Some rule → rule b = Some b).

Lemma rr_run_provenance (fuel : nat) (s : rr_state B) (out : list B) st :
  run fuel s = (out, st) →
  Forall (candidate seqs_v) out ∧
  ∀ s', st = Running s' →
    ∃ added, merged s' = merged s ++ added ∧ length added = length out ∧
             Forall acceptable added.
Proof.
  revert s out st. induction fuel as [|fuel IH]; intros s out st; simpl.
  { intros [= <- <-]. split; [done|]. intros s' [= <-].
    exists []. by rewrite app_nil_r. }
  destruct (step s) as [| |s1|v s1] eqn:Hstep.
  - intros [= <- <-]. by split.
  - intros [= <- <-]. by split.
  - apply rr_step_Continue_inv in Hstep as (_ & Hm & _).
    intros Hrun. rewrite <-Hm. by apply IH.
  - apply rr_step_Yield_inv in Hstep
      as (_ & _ & c & seq_q & seq_v & block_q & c' & _ & Hq & Hsv & Hbq & Hbv
          & Hok & Hm & _).
    apply can_schedule_true in Hok as [_ Hfix].
    destruct (run fuel s1) as [out1 st1] eqn:Hrun. intros [= <- <-].
    destruct (IH s1 out1 st1 Hrun) as [Hout Hmerged]. split.
    + constructor; [|done]. exists seq_v.
      split; by eapply list_elem_of_lookup_2.
    + intros s' Hs'. destruct (Hmerged s' Hs') as (added & Heq & Hlen & Hacc).
      exists (block_q :: added). rewrite Heq, Hm, <-app_assoc. simpl.
      split_and!; [done|by rewrite Hlen|].
      constructor; [|done]. split; [|done].
      exists seq_q. split; by eapply list_elem_of_lookup_2.
Qed.
End round_robin_provenance.

(** X3: whatever the resolver yields is a block of one of the value lists,
    and it has accepted exactly as many query blocks as it has yielded, each
    of them a block of a query list that the sun-avoidance rule, when one is
    given, returns unchanged. *)
Theorem round_robin_yields_candidates {B} `{!EqDecision B}
    (overlaps : B → B → bool) (seqs_q : list (list B))
    (seqs_v : option (list (list B))) (rule : option (B → option B))
    (fuel : nat) :
  Forall (candidate (default seqs_q seqs_v))
    (round_robin overlaps seqs_q seqs_v rule fuel).1 ∧
  ∀ s, (round_robin overlaps seqs_q seqs_v rule fuel).2 = Running s →
    length (merged s) = length (round_robin overlaps seqs_q seqs_v rule fuel).1 ∧
    Forall (λ b, candidate seqs_q b ∧ ∀ f, rule = Some f → f b = Some b)
      (merged s).
Proof.
  unfold round_robin. case_bool_decide; [|by split].
  destruct (rr_run _ _ _ _ _ _) as [out st] eqn:Hrun.
  apply rr_run_provenance in Hrun as [Hout Hmerged]. split; [done|].
  simpl. intros s ->. destruct (Hmerged s eq_refl) as (added & -> & <- & Hacc).
  done.
Qed.

Lemma sum_list_incr (cursors : list nat) (i c : nat) :
  cursors !! i = Some c →
  sum_list (<[i := (c + 1)%nat]> cursors) = (sum_list cursors + 1)%nat ∧
  Forall2 le cursors (<[i := (c + 1)%nat]> cursors).
Proof.
  revert i. induction cursors as [|x cursors IH]; intros [|i] Hi;
    simplify_eq/=.
  - split; [lia|]. constructor; [lia|]. reflexivity.
  - destruct (IH i Hi) as [-> Hle]. split; [lia|]. by constructor.
Qed.

Lemma sum_list_le (l k : list nat) :
  Forall2 le l k → (sum_list l ≤ sum_list k)%nat.
Proof. induction 1; simpl; lia. Qed.

Section round_robin_cursors.
Context {B : Type} `{!EqDecision B}.
Variable overlaps : B → B → bool.
Variable seqs_q seqs_v : list (list B).
Variable sun_avoidance : option (B → option B).

Local Abbreviation step := (rr_step overlaps seqs_q seqs_v sun_avoidance).
Local Abbreviation run := (rr_run overlaps seqs_q seqs_v sun_avoidance).

(** A pass that yields moves one cursor up by one; a pass that does not
    yield moves one cursor up by one (a rejection) or none (a rotation). *)
Lemma rr_step_cursors (s : rr_state B) :
  match step s with
  | Yield _ s' =>
      sum_list (block_i s') = (sum_list (block_i s) + 1)%nat ∧
      Forall2 le (block_i s) (block_i s')
  | Continue s' =>
      (sum_list (block_i s') ≤ sum_list (block_i s) + 1)%nat ∧
      Forall2 le (block_i s) (block_i s')
  | _ => True
  end.
Proof.
  destruct (step s) as [| |s'|v s'] eqn:Hstep; [done..| |].
  - apply rr_step_Continue_inv in Hstep
      as (_ & _ & c & seq_q & Hc & _ & [(_ & _ & ->)|(_ & _ & ->)]).
    + split; [lia|]. reflexivity.
    + destruct (sum_list_incr _ _ _ Hc) as [-> Hle]. by split.
  - apply rr_step_Yield_inv in Hstep
      as (_ & _ & c & seq_q & seq_v & block_q & c' & _ & _ & _ & _ & _ & _ & _
          & Hc' & ->).
    by apply sum_list_incr.
Qed.
End round_robin_cursors.

(** X4: the cursors only move forward.  Over any run that is still going,
    no cursor has decreased, every yielded block has cost one cursor
    position, and the cursors have moved by at most one position per pass
    in total. *)
Theorem round_robin_cursors_advance {B} `{!EqDecision B}
    (overlaps : B → B → bool) (seqs_q seqs_v : list (list B))
    (rule : option (B → option B)) (fuel : nat) (s s' : rr_state B)
    (out : list B) :
  rr_run overlaps seqs_q seqs_v rule fuel s = (out, Running s') →
  Forall2 le (block_i s) (block_i s') ∧
  (sum_list (block_i s) + length out ≤ sum_list (block_i s'))%nat ∧
  (sum_list (block_i s') ≤ sum_list (block_i s) + fuel)%nat.
Proof.
  revert s out. induction fuel as [|fuel IH]; intros s out; simpl.
  { intros [= <- <-]. split; [reflexivity|]. simpl. lia. }
  pose proof (rr_step_cursors overlaps seqs_q seqs_v rule s) as Hstep.
  destruct (rr_step overlaps seqs_q seqs_v rule s) as [| |s1|v s1]; [done..| |].
  - intros Hrun. destruct (IH _ _ Hrun) as (Hle & Hlo & Hhi).
    destruct Hstep as [Hsum Hle1]. split; [by etrans|].
    apply sum_list_le in Hle1. lia.
  - destruct (rr_run _ _ _ _ fuel s1) as [out1 st1] eqn:Hrun.
    intros [= <- ->]. destruct (IH _ _ Hrun) as (Hle & Hlo & Hhi).
    destruct Hstep as [Hsum Hle1]. split; [by etrans|]. simpl. lia.
Qed.

Lemma round_robin_cursors_advance_witness :
  Forall2 le [0; 0]%nat [2; 2]%nat ∧
  (sum_list [0; 0] + 2 ≤ sum_list [2; 2])%nat ∧
  (sum_list [2; 2]%nat ≤ sum_list [0; 0]%nat + 6)%nat.
Proof.
  apply (round_robin_cursors_advance (block_overlap false) scenario_A_q
           scenario_A_q None 6 (rr_init scenario_A_q)
           {| block_idx := [0; 0]%nat; seq_i := 0; block_i := [2; 2]%nat;
              merged := [mkBlock 1 2; mkBlock 3 4] |}
           [mkBlock 1 2; mkBlock 3 4]).
  reflexivity.
Defined.

Section round_robin_single.
Context {B : Type} `{!EqDecision B}.
Variable overlaps : B → B → bool.
Variable sun_avoidance : option (B → option B).
Variable seq : list B.

Local Abbreviation run := (rr_run overlaps [seq] [seq] sun_avoidance).
Local Abbreviation greedy := (greedy_select overlaps sun_avoidance).

(** The generator's state on the one list [seq], with [c] blocks consumed
    and [accepted] blocks accepted. *)
Local Abbreviation at_cursor c accepted :=
  {| block_idx := [0%nat]; seq_i := 0; block_i := [c]; merged := accepted |}.

(** With one candidate list the rotation comes back to the same candidate,
    so each pass consumes exactly the block under the cursor. *)
Lemma rr_step_single (c : nat) (accepted : list B) (b : B) :
  seq !! c = Some b →
  rr_step overlaps [seq] [seq] sun_avoidance (at_cursor c accepted) =
    if can_schedule overlaps sun_avoidance accepted b
    then Yield b (at_cursor (c + 1)%nat (accepted ++ [b]))
    else Continue (at_cursor (c + 1)%nat accepted).
Proof.
  intros Hb. unfold rr_step, rr_body.
  rewrite (exhausted_false [seq] (at_cursor c accepted)); [|done|].
  2: { destruct seq as [|x rest]; [done|]. by exists 0%nat, x, rest. }
  simpl. rewrite bool_decide_eq_false_2.
  2: { apply lookup_lt_Some in Hb. lia. }
  rewrite Hb. simpl. by destruct (can_schedule _ _ _ _).
Qed.

Lemma rr_run_single (suffix prefix accepted : list B) :
  seq = prefix ++ suffix →
  run (length suffix) (at_cursor (length prefix) accepted) =
    (greedy accepted suffix,
     Running (at_cursor (length seq) (accepted ++ greedy accepted suffix))).
Proof.
  revert prefix accepted.
  induction suffix as [|b suffix IH]; intros prefix accepted Hseq; simpl.
  { by rewrite Hseq, !app_nil_r. }
  rewrite (rr_step_single (length prefix) accepted b).
  2: { rewrite Hseq. by apply list_lookup_middle. }
  specialize (IH (prefix ++ [b])). rewrite length_app in IH. simpl in IH.
  destruct (can_schedule _ _ _ _).
  - rewrite (IH (accepted ++ [b])) by (by rewrite <-app_assoc).
    by rewrite <-app_assoc.
  - by rewrite (IH accepted) by (by rewrite <-app_assoc).
Qed.
End round_robin_single.

(** X5: on a single, non-empty candidate list the resolver yields, within
    as many passes as the list has blocks, exactly the greedy selection:
    going through the list in order, each block that overlaps none of the
    blocks kept before it and that the rule returns unchanged.  It yields
    nothing after that, and keeps running. *)
Theorem round_robin_single_list_greedy {B} `{!EqDecision B}
    (overlaps : B → B → bool) (rule : option (B → option B))
    (b : B) (rest : list B) (fuel : nat) :
  ∃ s, round_robin overlaps [b :: rest] None rule (length (b :: rest) + fuel)
       = (greedy_select overlaps rule [] (b :: rest), Running s).
Proof.
  unfold round_robin. simpl default. rewrite bool_decide_eq_true_2 by done.
  rewrite rr_run_add.
  pose proof (rr_run_single overlaps rule (b :: rest) (b :: rest) [] []
                eq_refl) as Hrun.
  simpl length in Hrun. simpl length. unfold rr_init, n_seq. simpl replicate.
  rewrite Hrun.
  edestruct (rr_run_spin overlaps [b :: rest] [b :: rest] rule fuel)
    as (s' & -> & _); [| | | |by rewrite app_nil_r; eauto].
  - done.
  - by exists 0%nat, b, rest.
  - repeat constructor.
  - simpl. unfold n_seq. simpl. lia.
Qed.

(** * Further properties of the registered operations *)

Lemma hwp_spin_up_inv (state state' : State) (disable_hwp : bool)
    (duration : Z) (cmds : list string) :
  hwp_spin_up state disable_hwp = Some (state', (duration, cmds)) →
  (disable_hwp = true ∧ state' = state ∧ duration = 0) ∨
  (disable_hwp = false ∧ ∃ v, state !! "hwp_spinning" = Some v ∧
     ((truthy v = true ∧ state' = state ∧ duration = 0) ∨
      (truthy v = false ∧ state' = <["hwp_spinning" := VBool true]> state ∧
       duration = 20 * minute))).
Proof.
  unfold hwp_spin_up. destruct disable_hwp; simpl.
  { intros [= <- <- <-]. by left. }
  destruct (state !! "hwp_spinning") as [v|]; [simpl|done].
  destruct (truthy v) eqn:Hv; simpl; intros [= <- <- <-]; right;
    (split; [done|]); exists v; (split; [done|]); [left|right]; done.
Qed.

Lemma hwp_spin_down_inv (state state' : State) (disable_hwp : bool)
    (duration : Z) (cmds : list string) :
  hwp_spin_down state disable_hwp = Some (state', (duration, cmds)) →
  (disable_hwp = true ∧ state' = state ∧ duration = 0) ∨
  (disable_hwp = false ∧ ∃ v, state !! "hwp_spinning" = Some v ∧
     ((truthy v = false ∧ state' = state ∧ duration = 0) ∨
      (truthy v = true ∧ state' = <["hwp_spinning" := VBool false]> state ∧
       duration = 10 * minute))).
Proof.
  unfold hwp_spin_down. destruct disable_hwp; simpl.
  { intros [= <- <- <-]. by left. }
  destruct (state !! "hwp_spinning") as [v|]; [simpl|done].
  destruct (truthy v) eqn:Hv; simpl; intros [= <- <- <-]; right;
    (split; [done|]); exists v; (split; [done|]); [right|left]; done.
Qed.

(** X6: spinning the HWP up, or down, a second time does nothing: after a
    call that succeeded, the same call returns zero duration, a one-line
    comment and the state as it is. *)
Theorem hwp_spin_idempotent (state state' : State) (disable_hwp : bool)
    (result : Z * list string) :
  (hwp_spin_up state disable_hwp = Some (state', result) →
   hwp_spin_up state' disable_hwp =
     Some (state', (0, ["# hwp disabled or already spinning"]))) ∧
  (hwp_spin_down state disable_hwp = Some (state', result) →
   hwp_spin_down state' disable_hwp =
     Some (state', (0, ["# hwp disabled or not spinning"]))).
Proof.
  destruct result as [duration cmds]. split; intros Hcall.
  - apply hwp_spin_up_inv in Hcall
      as [(-> & -> & _)|(-> & v & Hv & [(Ht & -> & _)|(Ht & -> & _)])];
      unfold hwp_spin_up; simpl; [done| |].
    + by rewrite Hv; simpl; rewrite Ht.
    + by rewrite lookup_insert_eq.
  - apply hwp_spin_down_inv in Hcall
      as [(-> & -> & _)|(-> & v & Hv & [(Ht & -> & _)|(Ht & -> & _)])];
      unfold hwp_spin_down; simpl; [done| |].
    + by rewrite Hv; simpl; rewrite Ht.
    + by rewrite lookup_insert_eq.
Qed.

(** X7: with the HWP enabled, a spin-up followed by a spin-down always ends
    with the HWP recorded as not spinning; the spin-down costs ten minutes,
    and the spin-up costs twenty minutes exactly when the HWP was not
    spinning before.  With the HWP disabled both calls cost nothing and do
    not even read the state. *)
Theorem hwp_spin_up_then_down (state : State) (v : Val) :
  state !! "hwp_spinning" = Some v →
  (∃ state1 cmds1 state2 cmds2,
     hwp_spin_up state false =
       Some (state1, (if truthy v then 0 else 20 * minute, cmds1)) ∧
     hwp_spin_down state1 false = Some (state2, (10 * minute, cmds2)) ∧
     state2 = <["hwp_spinning" := VBool false]> state1) ∧
  (∀ any : State, ∃ cmds1 cmds2,
     hwp_spin_up any true = Some (any, (0, cmds1)) ∧
     hwp_spin_down any true = Some (any, (0, cmds2))).
Proof.
  intros Hv. split; [|by eexists _, _].
  unfold hwp_spin_up, hwp_spin_down. simpl. rewrite Hv. simpl.
  destruct (truthy v) eqn:Ht; simpl.
  - eexists _, _, _, _. split; [done|]. rewrite Hv. simpl. by rewrite Ht.
  - eexists _, _, _, _. split; [done|]. by rewrite lookup_insert_eq.
Qed.

Lemma hwp_spin_up_then_down_witness :
  ∃ state1 cmds1 state2 cmds2,
    hwp_spin_up example_op_state false = Some (state1, (20 * minute, cmds1)) ∧
    hwp_spin_down state1 false = Some (state2, (10 * minute, cmds2)) ∧
    state2 = <["hwp_spinning" := VBool false]> state1.
Proof.
  apply (hwp_spin_up_then_down example_op_state (VBool false)).
  reflexivity.
Defined.

(** The pointing test reads [az_now] and [el_now] only. *)
Lemma pointing_differs_insert (state : State) (block : ScanBlock)
    (key : string) (v : Val) :
  key ≠ "az_now" → key ≠ "el_now" →
  pointing_differs (<[key := v]> state) block = pointing_differs state block.
Proof.
  intros Haz Hel. unfold pointing_differs.
  by rewrite !(lookup_insert_ne _ key) by done.
Qed.

(** A number differs from itself exactly when it is NaN. *)
Lemma py_ne_num_self (x : number) : py_ne (VNum x) (VNum x) = is_nan x.
Proof.
  unfold py_ne, py_eq. destruct x; simpl; [|done..].
  by rewrite bool_decide_eq_true_2.
Qed.

(** Once the block's pointing is stored, the pointing differs only by a
    NaN. *)
Lemma pointing_differs_stored (state : State) (block : ScanBlock) :
  pointing_differs
    (<["el_now" := VNum (alt block)]> (<["az_now" := VNum (az block)]> state))
    block = Some (is_nan (az block) || is_nan (alt block)).
Proof.
  set (state' := <["el_now" := _]> _).
  assert (Haz : state' !! "az_now" = Some (VNum (az block))).
  { subst state'. rewrite lookup_insert_ne by discriminate.
    apply lookup_insert_eq. }
  assert (Hel : state' !! "el_now" = Some (VNum (alt block))).
  { apply lookup_insert_eq. }
  unfold pointing_differs. rewrite Haz. simpl. rewrite py_ne_num_self.
  destruct (is_nan (az block)); [done|]. rewrite Hel. simpl.
  by rewrite py_ne_num_self.
Qed.

(** A pointing with a NaN in it differs from every stored pointing. *)
Lemma pointing_differs_nan (state : State) (block : ScanBlock) :
  pointing_differs state block = Some false →
  is_nan (az block) = false ∧ is_nan (alt block) = false.
Proof.
  unfold pointing_differs.
  destruct (state !! "az_now") as [az_now|]; [simpl|done].
  destruct (az block) as [q| | |] eqn:Haz;
    try (destruct (py_ne _ az_now); [done|];
         destruct (state !! "el_now") as [el_now|]; [simpl|done];
         destruct (alt block) as [r| | |] eqn:Halt; try done;
         by rewrite py_ne_nan_l).
  by rewrite py_ne_nan_l.
Qed.

Section block_operations_facts.
Variable isoformat : datetime → string.
Variable str_opt : option number → string.
Variable str_round3 : number → string.

Local Abbreviation boresight := (setup_boresight str_opt str_round3).
Local Abbreviation detectors := (det_setup isoformat str_round3).

(** What a successful [setup_boresight] leaves behind: the pointing and the
    boresight rotation of the block, which differ from the block's own only
    by a NaN. *)
Lemma setup_boresight_post (state state' : State) (block : ScanBlock)
    (apply_boresight_rot : bool) (cmds : list string) :
  boresight state block apply_boresight_rot = Some (state', cmds) →
  pointing_differs state' block
    = Some (is_nan (az block) || is_nan (alt block)) ∧
  (apply_boresight_rot = true →
   ∃ rot_now, state' !! "boresight_rot_now" = Some rot_now ∧
              py_ne rot_now (opt_val (boresight_rot block))
              = bool_decide (boresight_rot block = Some NaN)).
Proof.
  assert (Hkeep : ∀ st : State,
            pointing_differs st block = Some false →
            pointing_differs st block
            = Some (is_nan (az block) || is_nan (alt block))).
  { intros st Hst. destruct (pointing_differs_nan _ _ Hst) as [-> ->].
    done. }
  assert (Hrot : ∀ rot_now,
            py_ne rot_now (opt_val (boresight_rot block)) = false →
            py_ne rot_now (opt_val (boresight_rot block))
            = bool_decide (boresight_rot block = Some NaN)).
  { intros rot_now Hne. rewrite Hne. symmetry.
    apply bool_decide_eq_false_2. intros Hnan. rewrite Hnan in Hne.
    simpl in Hne. by rewrite py_ne_nan_r in Hne. }
  assert (Hself : py_ne (opt_val (boresight_rot block))
                    (opt_val (boresight_rot block))
                  = bool_decide (boresight_rot block = Some NaN)).
  { destruct (boresight_rot block) as [x|]; simpl.
    - rewrite py_ne_num_self. destruct x; simpl; try done.
      all: symmetry; by apply bool_decide_eq_false_2.
    - done. }
  unfold setup_boresight. destruct apply_boresight_rot; simpl.
  - destruct (state !! "boresight_rot_now") as [rot_now|] eqn:Hlookup;
      [simpl|done].
    destruct (py_ne rot_now (opt_val (boresight_rot block))) eqn:Hne.
    + rewrite pointing_differs_insert by discriminate.
      destruct (pointing_differs state block) as [[]|] eqn:Hdiff;
        simpl; [| |done]; intros [= <- <-].
      * split; [apply pointing_differs_stored|]. intros _.
        exists (opt_val (boresight_rot block)).
        rewrite !lookup_insert_ne by discriminate.
        by rewrite lookup_insert_eq.
      * split.
        { rewrite pointing_differs_insert by discriminate. by apply Hkeep. }
        intros _. exists (opt_val (boresight_rot block)).
        by rewrite lookup_insert_eq.
    + destruct (pointing_differs state block) as [[]|] eqn:Hdiff;
        simpl; [| |done]; intros [= <- <-].
      * split; [apply pointing_differs_stored|]. intros _. exists rot_now.
        rewrite !lookup_insert_ne by discriminate. split; [done|].
        by apply Hrot.
      * split; [by apply Hkeep|]. intros _. exists rot_now.
        split; [done|]. by apply Hrot.
  - destruct (pointing_differs state block) as [[]|] eqn:Hdiff;
      simpl; [| |done]; intros [= <- <-].
    + split; [apply pointing_differs_stored|done].
    + split; [by apply Hkeep|done].
Qed.

(** X8: [setup_boresight] is idempotent on every pointing but a NaN.  After
    a call that succeeded, the same call issues no command and leaves the
    state as it is exactly when neither [az] nor [alt] of the block is NaN
    and, if the boresight rotation is applied, that rotation is not NaN
    either; a NaN differs from the NaN that was stored, so its command is
    issued again. *)
Theorem setup_boresight_idempotent (state state' : State) (block : ScanBlock)
    (apply_boresight_rot : bool) (cmds : list string) :
  boresight state block apply_boresight_rot = Some (state', cmds) →
  boresight state' block apply_boresight_rot = Some (state', []) ↔
  is_nan (az block) = false ∧ is_nan (alt block) = false ∧
  (apply_boresight_rot = true → boresight_rot block ≠ Some NaN).
Proof.
  intros Hcall. apply setup_boresight_post in Hcall as [Hdiff Hrot].
  unfold setup_boresight. destruct apply_boresight_rot; simpl.
  - destruct (Hrot eq_refl) as (rot_now & Hlookup & Hne).
    rewrite Hlookup. simpl. rewrite Hne.
    case_bool_decide as Hnan.
    + rewrite pointing_differs_insert by discriminate. rewrite Hdiff. simpl.
      split; [|by intros (_ & _ & Hno); destruct Hno].
      destruct (_ || _); intros [= _ Hcmds]; by destruct (_ : list string).
    + rewrite Hdiff. simpl.
      destruct (is_nan (az block)), (is_nan (alt block)); simpl;
        (split; [try by intros [= _ Hcmds]|try by intros (? & ? & _)]).
      done.
  - rewrite Hdiff. simpl.
    destruct (is_nan (az block)), (is_nan (alt block)); simpl;
      (split; [try by intros [= _ Hcmds]|try by intros (? & ? & _)]).
    done.
Qed.

(** X9: once [setup_boresight] has pointed the state at a block,
    [det_setup] for that block finds the pointing unchanged and does
    nothing (zero duration, no command, state untouched), unless [az] or
    [alt] of the block is NaN: then the pointing still differs and
    [det_setup] does not return that. *)
Theorem det_setup_after_setup_boresight (state state' : State)
    (block : ScanBlock) (apply_boresight_rot disable_hwp : bool)
    (cmds : list string) :
  boresight state block apply_boresight_rot = Some (state', cmds) →
  detectors state' block disable_hwp = Some (state', (0, [])) ↔
  is_nan (az block) = false ∧ is_nan (alt block) = false.
Proof.
  intros Hcall. apply setup_boresight_post in Hcall as [Hdiff _].
  unfold det_setup. rewrite Hdiff. simpl.
  destruct (is_nan (az block)), (is_nan (alt block)); simpl;
    try (split; [|by intros [? ?]]).
  4: done.
  all: destruct disable_hwp; simpl; [by intros [= ?]|].
  all: destruct (state' !! "hwp_spinning") as [v|]; [simpl|done].
  all: destruct (truthy v) eqn:Hv; simpl; [done|].
  all: unfold hwp_spin_up; simpl.
  all: destruct (state' !! "hwp_spinning") as [w|]; [simpl|done].
  all: by destruct (truthy w).
Qed.
End block_operations_facts.

Lemma setup_boresight_idempotent_witness :
  ∃ state',
    setup_boresight (λ _, "") (λ _, "") example_op_state
      (example_block "cmb") true
      = Some (state', ["run.acu.set_boresight("; "run.acu.move_to(az=, el=)"])
    ∧ setup_boresight (λ _, "") (λ _, "") state' (example_block "cmb") true
      = Some (state', []).
Proof.
  eexists. split; [reflexivity|].
  apply (setup_boresight_idempotent (λ _, "") (λ _, "") example_op_state _
           (example_block "cmb") true
           ["run.acu.set_boresight("; "run.acu.move_to(az=, el=)"]).
  - reflexivity.
  - split_and!; [reflexivity|reflexivity|discriminate].
Defined.

Lemma det_setup_after_setup_boresight_witness :
  ∃ state',
    setup_boresight (λ _, "") (λ _, "") example_op_state
      (example_block "cmb") false = Some (state', ["run.acu.move_to(az=, el=)"])
    ∧ det_setup (λ _, "") (λ _, "") state' (example_block "cmb") false
      = Some (state', (0, [])).
Proof.
  eexists. split; [reflexivity|].
  apply (det_setup_after_setup_boresight (λ _, "") (λ _, "") (λ _, "")
           example_op_state _ (example_block "cmb") false false
           ["run.acu.move_to(az=, el=)"]).
  - reflexivity.
  - split; reflexivity.
Defined.

Section det_setup_facts.
Variable isoformat : datetime → string.
Variable str_round3 : number → string.

Local Abbreviation detectors := (det_setup isoformat str_round3).

(** A successful [det_setup] changes at most the entry [hwp_spinning]. *)
Lemma det_setup_inv (state state' : State) (block : ScanBlock)
    (disable_hwp : bool) (duration : Z) (cmds : list string) :
  detectors state block disable_hwp = Some (state', (duration, cmds)) →
  (pointing_differs state block = Some false ∧ state' = state ∧
   duration = 0 ∧ cmds = []) ∨
  (pointing_differs state block = Some true ∧ 60 ≤ duration ∧ cmds ≠ [] ∧
   (state' = state ∨ state' = <["hwp_spinning" := VBool true]> state)).
Proof.
  unfold det_setup.
  destruct (pointing_differs state block) as [[]|]; simpl; [| |done].
  2: { intros [= <- <- <-]. by left. }
  intros Hcall. right. split; [done|]. destruct disable_hwp; simpl in Hcall.
  { injection Hcall as <- <- <-. split_and!; [lia|done|by left]. }
  destruct (state !! "hwp_spinning") as [v|] eqn:Hlookup;
    [simpl in Hcall|done].
  destruct (truthy v) eqn:Hv; [done|]. simpl in Hcall.
  unfold hwp_spin_up in Hcall. simpl in Hcall.
  rewrite Hlookup in Hcall. simpl in Hcall. rewrite Hv in Hcall.
  simpl in Hcall.
  injection Hcall as <- <- <-. split_and!; [unfold minute; lia|done|by right].
Qed.

(** X10: [det_setup] never records the pointing it has set up, so it is
    not idempotent: if a call ran the detector setup, then the same call on
    the state it left runs the detector setup again (if it succeeds at
    all), at a cost of at least sixty seconds. *)
Theorem det_setup_repeats (state state' state'' : State) (block : ScanBlock)
    (disable_hwp : bool) (duration duration' : Z) (cmds cmds' : list string) :
  detectors state block disable_hwp = Some (state', (duration, cmds)) →
  cmds ≠ [] →
  detectors state' block disable_hwp = Some (state'', (duration', cmds')) →
  cmds' ≠ [] ∧ 60 ≤ duration'.
Proof.
  intros Hfirst Hran Hsecond.
  apply det_setup_inv in Hfirst
    as [(_ & _ & _ & ->)|(Hdiff & _ & _ & Hstate)]; [done|].
  assert (Hdiff' : pointing_differs state' block = Some true).
  { destruct Hstate as [->| ->]; [done|].
    by rewrite pointing_differs_insert by discriminate. }
  apply det_setup_inv in Hsecond as [(Hno & _)|(_ & Hdur & Hcmds & _)];
    [congruence|done].
Qed.

(** X11: with the HWP enabled, [det_setup] on a changed pointing succeeds
    only while the HWP is not spinning: it then costs sixty seconds plus the
    twenty minutes of the spin-up and records the HWP as spinning.  While
    the HWP is spinning the call raises, because it calls [hwp_spin_down]
    without its second argument. *)
Theorem det_setup_hwp_enabled (state : State) (block : ScanBlock) (v : Val) :
  pointing_differs state block = Some true →
  state !! "hwp_spinning" = Some v →
  if truthy v then detectors state block false = None
  else ∃ cmds, detectors state block false =
                 Some (<["hwp_spinning" := VBool true]> state,
                       (60 + 20 * minute, cmds)).
Proof.
  intros Hdiff Hv. unfold det_setup, hwp_spin_up. rewrite Hdiff. simpl.
  rewrite Hv. simpl. destruct (truthy v) eqn:Ht; simpl; [done|].
  by eexists.
Qed.
End det_setup_facts.

Lemma det_setup_repeats_witness :
  det_setup_commands (λ _, "") (λ _, "") (example_block "cmb") ≠ [] ∧ 60 ≤ 60.
Proof.
  apply (det_setup_repeats (λ _, "") (λ _, "") example_op_state
           example_op_state example_op_state (example_block "cmb") true
           60 60
           (det_setup_commands (λ _, "") (λ _, "") (example_block "cmb"))
           (det_setup_commands (λ _, "") (λ _, "") (example_block "cmb")));
    [reflexivity|discriminate|reflexivity].
Defined.

Lemma det_setup_hwp_enabled_witness :
  ∃ cmds, det_setup (λ _, "") (λ _, "") example_op_state
            (example_block "cmb") false
          = Some (<["hwp_spinning" := VBool true]> example_op_state,
                  (60 + 20 * minute, cmds)).
Proof.
  apply (det_setup_hwp_enabled (λ _, "") (λ _, "") example_op_state
           (example_block "cmb") (VBool false)); reflexivity.
Defined.

(** X12: a relock is not repeated within its window.  After a call that
    relocked at time [now], a call at any later time up to twelve hours
    after [now] returns zero duration and leaves the state as it is. *)
Theorem ufm_relock_not_repeated (state state' : State) (now later : datetime)
    (cmds : list string) :
  state !! "curr_time" = Some (VTime now) →
  ufm_relock state = Some (state', (15 * minute, cmds)) →
  later - now ≤ 12 * hour * 1000000 →
  ufm_relock (<["curr_time" := VTime later]> state') =
    Some (<["curr_time" := VTime later]> state',
          (0, ["# no ufm relock needed at this time"])).
Proof.
  intros Hnow Hcall Hwindow. unfold ufm_relock in Hcall.
  destruct (relock_due state) as [[]|]; simpl in Hcall; [| |done].
  2: { injection Hcall as _ Hduration _. unfold minute in Hduration. lia. }
  rewrite Hnow in Hcall. simpl in Hcall. injection Hcall as <- _.
  unfold ufm_relock.
  rewrite (relock_due_Some _ later (VTime now)).
  - simpl. by rewrite bool_decide_eq_false_2 by lia.
  - apply lookup_insert_eq.
  - rewrite lookup_insert_ne by discriminate. apply lookup_insert_eq.
Qed.

Lemma ufm_relock_not_repeated_witness :
  ufm_relock (<["curr_time" := VTime 1000000]>
                (<["last_ufm_relock" := VTime 0]> example_op_state)) =
    Some (<["curr_time" := VTime 1000000]>
            (<["last_ufm_relock" := VTime 0]> example_op_state),
          (0, ["# no ufm relock needed at this time"])).
Proof.
  apply (ufm_relock_not_repeated example_op_state _ 0 1000000 relock_commands).
  - reflexivity.
  - reflexivity.
  - unfold hour, minute. lia.
Defined.

(** X14: [set_scan_params] raises exactly when the state has no
    [az_speed_now], or when the requested speed equals the stored one and
    the state has no [az_accel_now].  When the speed differs the call
    succeeds without [az_accel_now] and creates it. *)
Theorem set_scan_params_missing_key (str : Val → string) (state : State)
    (az_speed az_accel : Val) :
  (set_scan_params str state az_speed az_accel = None ↔
   state !! "az_speed_now" = None ∨
   ∃ speed_now, state !! "az_speed_now" = Some speed_now ∧
                py_ne az_speed speed_now = false ∧
                state !! "az_accel_now" = None) ∧
  ∀ speed_now, state !! "az_speed_now" = Some speed_now →
               py_ne az_speed speed_now = true →
    ∃ state' cmds,
      set_scan_params str state az_speed az_accel = Some (state', cmds) ∧
      state' !! "az_accel_now" = Some az_accel ∧
      state' !! "az_speed_now" = Some az_speed.
Proof.
  unfold set_scan_params, scan_params_differ. split.
  - destruct (state !! "az_speed_now") as [speed_now|]; simpl.
    2: { split; [by left|done]. }
    destruct (py_ne az_speed speed_now) eqn:Hne; simpl.
    { split; [done|]. intros [|(? & [= <-] & ? & _)]; congruence. }
    destruct (state !! "az_accel_now") as [accel_now|]; simpl.
    + split; [by destruct (py_ne az_accel accel_now)|].
      by intros [|(? & _ & _ & ?)].
    + split; [|done]. intros _. right. by exists speed_now.
  - intros speed_now -> Hne. simpl. rewrite Hne. simpl.
    eexists _, _. split; [done|]. split; [apply lookup_insert_eq|].
    rewrite lookup_insert_ne by discriminate. apply lookup_insert_eq.
Qed.

(** X13: every operation writes its own entries of the state and no other:
    [ufm_relock] only [last_ufm_relock], [set_scan_params] only
    [az_speed_now] and [az_accel_now], the two HWP operations and
    [det_setup] only [hwp_spinning] (so [det_setup] never records the
    pointing), [setup_boresight] only [boresight_rot_now], [az_now] and
    [el_now], and [wrap_up] only [az_now] and [el_now]. *)
Theorem operations_frame (isoformat : datetime → string)
    (str : Val → string) (str_opt : option number → string)
    (str_round3 : number → string) (state state' : State) (key : string) :
  (∀ r, ufm_relock state = Some (state', r) →
        key ≠ "last_ufm_relock" → state' !! key = state !! key) ∧
  (∀ az_speed az_accel cmds,
     set_scan_params str state az_speed az_accel = Some (state', cmds) →
     key ≠ "az_speed_now" → key ≠ "az_accel_now" →
     state' !! key = state !! key) ∧
  (∀ disable_hwp r, hwp_spin_up state disable_hwp = Some (state', r) →
        key ≠ "hwp_spinning" → state' !! key = state !! key) ∧
  (∀ disable_hwp r, hwp_spin_down state disable_hwp = Some (state', r) →
        key ≠ "hwp_spinning" → state' !! key = state !! key) ∧
  (∀ block disable_hwp r,
     det_setup isoformat str_round3 state block disable_hwp = Some (state', r) →
     key ≠ "hwp_spinning" → state' !! key = state !! key) ∧
  (∀ block apply_boresight_rot cmds,
     setup_boresight str_opt str_round3 state block apply_boresight_rot
       = Some (state', cmds) →
     key ≠ "boresight_rot_now" → key ≠ "az_now" → key ≠ "el_now" →
     state' !! key = state !! key) ∧
  (state' = (wrap_up state).1 →
   key ≠ "az_now" → key ≠ "el_now" → state' !! key = state !! key).
Proof.
  split_and!.
  - intros r. unfold ufm_relock.
    destruct (relock_due state) as [[]|]; simpl; [| |done].
    + destruct (state !! "curr_time"); simpl; [|done].
      intros [= <- _] Hkey. by rewrite lookup_insert_ne.
    + by intros [= <- _].
  - intros az_speed az_accel cmds. unfold set_scan_params.
    destruct (scan_params_differ state az_speed az_accel) as [[]|];
      simpl; [| |done].
    + intros [= <- _] Hs Ha. by rewrite !lookup_insert_ne.
    + by intros [= <- _].
  - intros disable_hwp [duration cmds] Hcall Hkey.
    apply hwp_spin_up_inv in Hcall
      as [(_ & -> & _)|(_ & v & _ & [(_ & -> & _)|(_ & -> & _)])]; [done..|].
    by rewrite lookup_insert_ne.
  - intros disable_hwp [duration cmds] Hcall Hkey.
    apply hwp_spin_down_inv in Hcall
      as [(_ & -> & _)|(_ & v & _ & [(_ & -> & _)|(_ & -> & _)])]; [done..|].
    by rewrite lookup_insert_ne.
  - intros block disable_hwp [duration cmds] Hcall Hkey.
    apply det_setup_inv in Hcall
      as [(_ & -> & _)|(_ & _ & _ & [->| ->])]; [done..|].
    by rewrite lookup_insert_ne.
  - intros block apply_boresight_rot cmds. unfold setup_boresight.
    intros Hcall Hrot Haz Hel.
    destruct (if apply_boresight_rot then _ else _) as [rotate|];
      [simpl in Hcall|done].
    destruct rotate.
    + destruct (pointing_differs _ block) as [[]|]; simpl in Hcall; [| |done];
        injection Hcall as <- _; by rewrite !lookup_insert_ne.
    + destruct (pointing_differs _ block) as [[]|]; simpl in Hcall; [| |done];
        injection Hcall as <- _; [by rewrite !lookup_insert_ne|done].
  - intros -> Haz Hel. simpl. by rewrite !lookup_insert_ne.
Qed.

(** * Further properties of the spec query *)

Lemma string_prefix_spec (p key : string) :
  String.prefix p key = true ↔ ∃ after, key = p +:+ after.
Proof.
  revert key. induction p as [|a p IH]; intros [|b key]; simpl.
  { split; [by exists ""|done]. }
  { split; [by exists (String b key)|done]. }
  { split; [done|]. by intros [after [=]]. }
  destruct (Ascii.ascii_dec a b) as [->|Hne].
  - rewrite IH. split; intros [after Hafter]; exists after.
    + simpl. by rewrite Hafter.
    + simpl in Hafter. by injection Hafter.
  - split; [done|]. intros [after Hafter]. simpl in Hafter.
    injection Hafter as Hab _. by destruct Hne.
Qed.

Lemma str_in_unfold (p key : string) :
  str_in p key =
    String.prefix p key
    || match key with
       | EmptyString => false
       | String _ key' => str_in p key'
       end.
Proof.
  destruct key as [|c key]; cbn [str_in].
  - by destruct (String.prefix p "").
  - by destruct (String.prefix p (String c key)).
Qed.

(** The substring test finds exactly the occurrences. *)
Lemma str_in_occurs (p key : string) : str_in p key = true ↔ occurs_in p key.
Proof.
  induction key as [|c key IH]; rewrite str_in_unfold, orb_true_iff,
    string_prefix_spec.
  - split.
    + intros [[after ->]|]; [|done]. by exists "", after.
    + intros ([|? before] & after & Heq); [|done]. left. by exists after.
  - rewrite IH. split.
    + intros [[after ->]|(before & after & ->)].
      * by exists "", after.
      * by exists (String c before), after.
    + intros ([|c' before] & after & Heq).
      * left. by exists after.
      * right. simpl in Heq. injection Heq as _ ->. by exists before, after.
Qed.

Lemma match_p_occurs (query : list string) (key : string) :
  match_p query key = true ↔ ∃ p, p ∈ query ∧ occurs_in p key.
Proof.
  unfold match_p. rewrite existsb_exists. split.
  - intros (p & Hin & Hp). exists p.
    split; [by apply list_elem_of_In|by apply str_in_occurs].
  - intros (p & Hin & Hp). exists p.
    split; [by apply list_elem_of_In|by apply str_in_occurs].
Qed.

(** X19: with [merge=False], [get_spec] returns, in the order the tree is
    visited, exactly the leaves whose dot-joined path has one of the query
    strings occurring in it as a substring. *)
Theorem get_spec_no_merge (specs : SpecsTree) (query : list string) :
  get_spec specs query false = Matches (matching_leaves specs query) ∧
  ∀ key, match_p query key = true ↔ ∃ p, p ∈ query ∧ occurs_in p key.
Proof.
  split; [|apply match_p_occurs].
  unfold get_spec. simpl. by rewrite all_matches_matching_leaves.
Qed.

Lemma leaves_with_path_leaves {A} (tree : Tree A) (path : list string) :
  (leaves_with_path path tree).*2 = tree_leaves tree.
Proof.
  revert path. induction tree as [x| |children IH] using Tree_nested_ind;
    intros path; simpl; [done..|].
  induction IH as [|[key sub] rest Hsub _ IHrest]; simpl; [done|].
  rewrite fmap_app. f_equal; [apply Hsub|apply IHrest].
Qed.

Lemma filter_all {A} (P : A → Prop) `{!∀ x, Decision (P x)} (l : list A) :
  (∀ x, P x) → filter P l = l.
Proof.
  intros HP. induction l as [|x l IH]; [done|].
  by rewrite filter_cons_True, IH.
Qed.

Lemma filter_none {A} (P : A → Prop) `{!∀ x, Decision (P x)} (l : list A) :
  (∀ x, ¬ P x) → filter P l = [].
Proof.
  intros HP. induction l as [|x l IH]; [done|].
  by rewrite filter_cons_False.
Qed.

(** X20: the two degenerate queries.  An empty query list matches no leaf:
    the result is the empty dict, or the empty list without merging.  A query
    list that holds the empty string matches every leaf, since the empty
    string occurs in every path. *)
Theorem get_spec_degenerate_queries (specs : SpecsTree)
    (query : list string) :
  get_spec specs [] true = EmptyDict ∧
  get_spec specs [] false = Matches [] ∧
  ("" ∈ query → get_spec specs query false = Matches (tree_leaves specs)).
Proof.
  assert (Hnone : matching_leaves specs [] = []).
  { unfold matching_leaves. by rewrite filter_none. }
  unfold get_spec. rewrite !all_matches_matching_leaves, Hnone. simpl.
  split_and!; [done..|]. intros Hin. f_equal.
  unfold matching_leaves. rewrite filter_all.
  - apply leaves_with_path_leaves.
  - intros [path leaf]. apply match_p_occurs. exists "".
    split; [done|]. by exists "", (path2key path).
Qed.

Lemma matching_leaves_elem_of (specs : SpecsTree) (query : list string)
    (leaf : Spec) :
  leaf ∈ matching_leaves specs query ↔
  ∃ path, (path, leaf) ∈ leaves_with_path [] specs ∧
          match_p query (path2key path) = true.
Proof.
  unfold matching_leaves. rewrite list_elem_of_fmap. split.
  - intros ([path leaf'] & -> & [Hp Hin]%list_elem_of_filter). by exists path.
  - intros (path & Hin & Hp). exists (path, leaf).
    split; [done|]. by apply list_elem_of_filter.
Qed.

Lemma matching_leaves_mono (specs : SpecsTree) (query query' : list string) :
  query ⊆ query' →
  matching_leaves specs query ⊆ matching_leaves specs query'.
Proof.
  intros Hsub leaf. rewrite !matching_leaves_elem_of.
  intros (path & Hin & Hp). exists path. split; [done|].
  apply match_p_occurs in Hp as (p & Hq & Hocc).
  apply match_p_occurs. exists p. split; [by apply Hsub|done].
Qed.

Lemma elem_of_fmap_subseteq {A C} (f : A → C) (l l' : list A) (y : C) :
  l ⊆ l' → y ∈ f <$> l → y ∈ f <$> l'.
Proof.
  intros Hsub (x & -> & Hx)%list_elem_of_fmap.
  by apply list_elem_of_fmap_2, Hsub.
Qed.

Lemma spans_encloses (outer inner : Spec) (specs specs' : list Spec) :
  specs ⊆ specs' → spans inner specs → spans outer specs' →
  encloses outer inner.
Proof.
  intros Hsub ([Hx1 _] & [Hx2 _] & [Hy1 _] & [Hy2 _])
    ([_ Hx1'] & [_ Hx2'] & [_ Hy1'] & [_ Hy2']).
  unfold encloses.
  split_and!; [apply Hx1'|apply Hx2'|apply Hy1'|apply Hy2'];
    (eapply elem_of_fmap_subseteq; [exact Hsub|]); assumption.
Qed.

(** X21: the merged result grows with the query.  If every query string of
    one query is also in another, the first query has a merged leaf and no
    bound of a leaf that the second query matches is NaN, then the second
    query has a merged leaf too, and its bounds enclose those of the first
    on both axes. *)
Theorem get_spec_monotone (specs : SpecsTree) (query query' : list string)
    (spec : Spec) :
  query ⊆ query' →
  Forall (λ s, spec_no_nan s = true) (matching_leaves specs query') →
  get_spec specs query true = Reduced spec →
  ∃ spec', get_spec specs query' true = Reduced spec' ∧ encloses spec' spec.
Proof.
  intros Hsub Hnan'.
  pose proof (matching_leaves_mono specs query query' Hsub) as Hleaves.
  assert (Hnan : Forall (λ s, spec_no_nan s = true)
                   (matching_leaves specs query)).
  { rewrite Forall_forall in Hnan'. apply Forall_forall.
    intros s Hs. by apply Hnan', Hleaves. }
  unfold get_spec. simpl. rewrite !all_matches_matching_leaves.
  destruct (matching_leaves specs query) as [|leaf rest] eqn:Hml; [done|].
  intros [= <-].
  destruct (matching_leaves specs query') as [|leaf' rest'] eqn:Hml'.
  { assert (Hin : leaf ∈ @nil Spec) by (apply Hleaves; left).
    by apply elem_of_nil in Hin. }
  eexists. split; [done|].
  eapply spans_encloses; [exact Hleaves|by apply foldl_reduce_fn_spans..].
Qed.

Lemma get_spec_monotone_witness :
  ∃ spec', get_spec example_specs ["ws0"; "ws1"] true = Reduced spec' ∧
           encloses spec' (mkSpec (num (-2), num 1) (num (-2), num 2)).
Proof.
  apply (get_spec_monotone example_specs ["ws0"] ["ws0"; "ws1"]
           (mkSpec (num (-2), num 1) (num (-2), num 2))).
  - intros p Hp. apply list_elem_of_singleton in Hp as ->. left.
  - repeat constructor.
  - reflexivity.
Defined.

Lemma py_min_comm (a b : number) :
  is_nan a = false → is_nan b = false → py_min a b = py_min b a.
Proof.
  intros Ha Hb. apply num_le_antisym.
  - unfold py_min at 2. destruct (num_lt a b);
      [by apply py_min_le_l|by apply py_min_le_r].
  - unfold py_min at 2. destruct (num_lt b a);
      [by apply py_min_le_l|by apply py_min_le_r].
Qed.

Lemma py_max_comm (a b : number) :
  is_nan a = false → is_nan b = false → py_max a b = py_max b a.
Proof.
  intros Ha Hb. apply num_le_antisym.
  - unfold py_max at 1. destruct (num_lt a b);
      [by apply py_max_ge_l|by apply py_max_ge_r].
  - unfold py_max at 1. destruct (num_lt b a);
      [by apply py_max_ge_l|by apply py_max_ge_r].
Qed.

Lemma py_min_assoc (a b c : number) :
  is_nan a = false → is_nan b = false → is_nan c = false →
  py_min a (py_min b c) = py_min (py_min a b) c.
Proof.
  intros Ha Hb Hc.
  rewrite (py_min_comm a (py_min b c)) by (by try apply py_min_not_nan).
  eapply (is_min_unique _ _ [b; c; a] [a; b; c]).
  - by rewrite (Permutation_app_comm [b; c] [a]).
  - apply (foldl_py_min_is_min [c; a] b). by repeat constructor.
  - apply (foldl_py_min_is_min [b; c] a). by repeat constructor.
Qed.

Lemma py_max_assoc (a b c : number) :
  is_nan a = false → is_nan b = false → is_nan c = false →
  py_max a (py_max b c) = py_max (py_max a b) c.
Proof.
  intros Ha Hb Hc.
  rewrite (py_max_comm a (py_max b c)) by (by try apply py_max_not_nan).
  eapply (is_max_unique _ _ [b; c; a] [a; b; c]).
  - by rewrite (Permutation_app_comm [b; c] [a]).
  - apply (foldl_py_max_is_max [c; a] b). by repeat constructor.
  - apply (foldl_py_max_is_max [b; c] a). by repeat constructor.
Qed.

Lemma py_min_idemp (a : number) : py_min a a = a.
Proof. unfold py_min. by destruct (num_lt a a). Qed.

Lemma py_max_idemp (a : number) : py_max a a = a.
Proof. unfold py_max. by destruct (num_lt a a). Qed.

(** X22: on leaves without a NaN bound, the reduction step of [get_spec] is
    commutative and associative, so merging such leaves is independent of
    grouping and order; merging any leaf with itself changes nothing.  With
    a NaN bound the step does not commute: it keeps the bound of whichever
    leaf comes first. *)
Theorem reduce_fn_semilattice (l r s : Spec) :
  (spec_no_nan l = true → spec_no_nan r = true →
   reduce_fn l r = reduce_fn r l) ∧
  (spec_no_nan l = true → spec_no_nan r = true → spec_no_nan s = true →
   reduce_fn l (reduce_fn r s) = reduce_fn (reduce_fn l r) s) ∧
  reduce_fn l l = l ∧
  reduce_fn nan_leaf zero_leaf ≠ reduce_fn zero_leaf nan_leaf.
Proof.
  unfold reduce_fn. split_and!.
  - intros (? & ? & ? & ?)%spec_no_nan_bounds (? & ? & ? & ?)%spec_no_nan_bounds.
    f_equal; f_equal; first [by apply py_min_comm | by apply py_max_comm].
  - intros (? & ? & ? & ?)%spec_no_nan_bounds (? & ? & ? & ?)%spec_no_nan_bounds
      (? & ? & ? & ?)%spec_no_nan_bounds.
    simpl. f_equal; f_equal;
      first [by apply py_min_assoc | by apply py_max_assoc].
  - destruct l as [[x1 x2] [y1 y2]]. simpl.
    by rewrite !py_min_idemp, !py_max_idemp.
  - discriminate.
Qed.

Lemma reduce_fn_semilattice_witness :
  reduce_fn zero_leaf (mkSpec (num (-1), num 2) (num 0, num 0))
  = reduce_fn (mkSpec (num (-1), num 2) (num 0, num 0)) zero_leaf.
Proof.
  destruct (reduce_fn_semilattice zero_leaf
              (mkSpec (num (-1), num 2) (num 0, num 0)) zero_leaf)
    as (Hcomm & _).
  apply Hcomm; reflexivity.
Defined.

Lemma hwp_spin_idempotent_witness :
  hwp_spin_up (<["hwp_spinning" := VBool true]> example_op_state) false =
    Some (<["hwp_spinning" := VBool true]> example_op_state,
          (0, ["# hwp disabled or already spinning"])).
Proof.
  apply (hwp_spin_idempotent example_op_state
           (<["hwp_spinning" := VBool true]> example_op_state) false
           (20 * minute,
            [ "############# Start HWP ######################"; "HWPPrep()";
              "forward = True"; "hwp_freq = 2.0"; "HWPSpinUp()" ])).
  reflexivity.
Defined.

Lemma operations_frame_witness :
  (wrap_up example_op_state).1 !! "hwp_spinning"
  = example_op_state !! "hwp_spinning".
Proof.
  destruct (operations_frame (λ _, "") (λ _, "") (λ _, "") (λ _, "")
              example_op_state (wrap_up example_op_state).1 "hwp_spinning")
    as (_ & _ & _ & _ & _ & _ & Hwrap).
  apply Hwrap; [reflexivity|discriminate..].
Defined.

